(** * MicroLink: correlation-graph builder and anomaly scanner

    A shallow embedding of [scripts/build_graph.py] (the networkx back-end,
    [_build_nx]), of [scripts/detect_anomalies.py] ([_edge_lag], [scan]) and
    of the event-point naming of [scripts/normalize_events.py], followed by
    the properties of the design document that concern them.

    Conventions of the embedding.
    - Python [str] values are [string]s; messages are taken to be ASCII
      text, so [\w] is [A-Za-z0-9_] and case folding is ASCII case folding.
    - A pandas [Timestamp] is the integer number of nanoseconds since the
      epoch ([Z]); a [float] is a rational ([Q]), so rounding, infinities
      and NaN are outside the model.
    - A Python [dict] that is iterated keeps insertion order and is an
      association list; a [dict] that is only looked up is a [gmap].
    - A raised exception is the [Raise] case of [result]. *)

From Stdlib Require Import QArith Qminmax.
From stdpp Require Import gmap strings list fin_maps sorting pretty.
From Stdlib Require Import Ascii String.

Open Scope string_scope.
Open Scope Z_scope.

(** ** Python values stored in attribute dictionaries *)

(** The attribute values the two scripts read or write: [None], a
    [float], a [str], the [str] of a pandas timestamp (kept as the instant
    it renders; no code path reads its text), and any other object that is
    neither a number nor a string (a list, a dict, ...), of which only the
    truth value matters. *)
Inductive pyval : Type :=
  | PyNone
  | PyFloat (q : Q)
  | PyStr (s : string)
  | PyTs (t : Z)
  | PyObj (truth : bool).

Inductive exn : Type :=
  | KeyError (k : string)
  | TypeError
  | ValueError.

Inductive result (A : Type) : Type :=
  | Ok (a : A)
  | Raise (e : exn).
Arguments Ok {A} a.
Arguments Raise {A} e.

#[global] Instance result_ret : MRet result := fun A a => Ok a.

#[global] Instance result_bind : MBind result := fun A B k r =>
  match r with
  | Ok a => k a
  | Raise e => Raise e
  end.

(** [for x in xs: s = body(x, s)], the first exception leaving the loop. *)
Fixpoint for_each {A S} (body : A → S → result S) (xs : list A) (s : S)
  : result S :=
  match xs with
  | [] => Ok s
  | x :: xs' => s' ← body x s; for_each body xs' s'
  end.

(** [bool(v)] *)
Definition truthy (v : pyval) : bool :=
  match v with
  | PyNone => false
  | PyFloat q => negb (Qeq_bool q 0)
  | PyStr s => negb (String.eqb s "")
  | PyTs _ => true
  | PyObj b => b
  end.

(** [v == "text"] for a string literal. *)
Definition py_eq_str (v : pyval) (text : string) : bool :=
  match v with
  | PyStr s => String.eqb s text
  | _ => false
  end.

(** ** Regular expressions of the hop classifier *)

Module Re.

Inductive regex : Type :=
    | Lit (s : string)        (* literal text, compared ignoring case *)
    | Seq (r1 r2 : regex)
    | Alt (r1 r2 : regex)
    | Opt (r : regex)         (* r? *)
    | WordB.                  (* \b *)

Definition is_upper (c : ascii) : bool :=
    let n := nat_of_ascii c in (Nat.leb 65 n && Nat.leb n 90)%bool.

Definition is_lower (c : ascii) : bool :=
    let n := nat_of_ascii c in (Nat.leb 97 n && Nat.leb n 122)%bool.

Definition is_digit (c : ascii) : bool :=
    let n := nat_of_ascii c in (Nat.leb 48 n && Nat.leb n 57)%bool.

Definition lower_char (c : ascii) : ascii :=
    if is_upper c then ascii_of_nat (nat_of_ascii c + 32) else c.

  (** [str.lower()] *)
Fixpoint lower (s : string) : string :=
    match s with
    | EmptyString => EmptyString
    | String c s' => String (lower_char c) (lower s')
    end.

  (** [\w] *)
Definition is_word (c : ascii) : bool :=
    (is_upper c || is_lower c || is_digit c || Ascii.eqb c "_")%bool.

Definition word_before (prev : option ascii) : bool :=
    match prev with Some c => is_word c | None => false end.

Definition word_after (s : string) : bool :=
    match s with String c _ => is_word c | EmptyString => false end.

  (** A position in the subject: the character before it and the text
      from it on. *)
Definition pos : Type := option ascii * string.

Fixpoint match_lit (l : string) (p : pos) : list pos :=
    match l with
    | EmptyString => [p]
    | String a l' =>
        match snd p with
        | String c s' =>
            if Ascii.eqb (lower_char a) (lower_char c)
            then match_lit l' (Some c, s')
            else []
        | EmptyString => []
        end
    end.

  (** All positions at which a match of [r] begun at [p] can end, in the
      order in which a backtracking matcher tries them. *)
Fixpoint rmatch (r : regex) (p : pos) : list pos :=
    match r with
    | Lit l => match_lit l p
    | Seq r1 r2 => flat_map (rmatch r2) (rmatch r1 p)
    | Alt r1 r2 => rmatch r1 p ++ rmatch r2 p
    | Opt r1 => rmatch r1 p ++ [p]
    | WordB => if xorb (word_before (fst p)) (word_after (snd p))
               then [p] else []
    end.

Definition matches_at (r : regex) (p : pos) : bool :=
    match rmatch r p with [] => false | _ :: _ => true end.

Fixpoint search_from (r : regex) (prev : option ascii) (s : string) : bool :=
    if matches_at r (prev, s) then true
    else match s with
         | EmptyString => false
         | String c s' => search_from r (Some c) s'
         end.

  (** [bool(r.search(s))] for a pattern compiled with [re.I]. *)
Definition search (r : regex) (s : string) : bool := search_from r None s.

  (** [needle in s] *)
Fixpoint contains (needle s : string) : bool :=
    if String.prefix needle s then true
    else match s with
         | EmptyString => false
         | String _ s' => contains needle s'
         end.

End Re.

Definition QUEUE_NAME : string := "order.events".

(** [re.compile(r"\bpublish(ed)?\b", re.I)] *)
Definition PUB_RE : Re.regex :=
  Re.Seq Re.WordB
    (Re.Seq (Re.Lit "publish") (Re.Seq (Re.Opt (Re.Lit "ed")) Re.WordB)).

(** [re.compile(r"\bconsum(e|ed|ing)\b|\bprocess(ing)?\b", re.I)] *)
Definition CON_RE : Re.regex :=
  Re.Alt
    (Re.Seq Re.WordB
       (Re.Seq (Re.Lit "consum")
          (Re.Seq (Re.Alt (Re.Lit "e") (Re.Alt (Re.Lit "ed") (Re.Lit "ing")))
             Re.WordB)))
    (Re.Seq Re.WordB
       (Re.Seq (Re.Lit "process") (Re.Seq (Re.Opt (Re.Lit "ing")) Re.WordB))).

(** The [if PUB_RE.search(msg) ... elif CON_RE.search(msg) ...] test of the
    builder. *)
Inductive hop : Type := Publish | Consume | Other.

Definition classify (msg : string) : hop :=
  if Re.search PUB_RE msg then Publish
  else if Re.search CON_RE msg then Consume
  else Other.

(** ** Insertion-ordered dictionaries *)

Module OD.

Section Dict.
Context {V : Type}.

Definition t : Type := list (string * V).

    (** [d.get(k)] as an option *)
Fixpoint get (k : string) (d : t) : option V :=
      match d with
      | [] => None
      | (k', v) :: d' => if String.eqb k' k then Some v else get k d'
      end.

    (** [d[k] = f(d[k])] when [k] is present (in place), else
        [d[k] = fresh] appended at the end. *)
Fixpoint upsert (k : string) (f : V → V) (fresh : V) (d : t) : t :=
      match d with
      | [] => [(k, fresh)]
      | (k', v) :: d' =>
          if String.eqb k' k then (k', f v) :: d'
          else (k', v) :: upsert k f fresh d'
      end.

End Dict.

End OD.

(** ** The networkx [MultiDiGraph] *)

Abbreviation attrs := (gmap string pyval).

Record edge : Type := Edge {
  e_src : string;
  e_dst : string;
  e_data : attrs
}.

(** [g_nodes] is [G._node] (node id to attribute dict, in insertion order);
    [g_edges] holds every edge in the order of the [add_edge] calls. The
    nested adjacency dicts [G._adj] and [G._pred] are derived from it
    below. *)
Record MultiDiGraph : Type := Graph {
  g_nodes : list (string * attrs);
  g_edges : list edge
}.

Definition empty_graph : MultiDiGraph := Graph [] [].

(** [G.add_node(n, **a)]: a new node gets [a]; an existing node has its
    attribute dict updated with [a]. *)
Definition add_node (n : string) (a : attrs) (G : MultiDiGraph) : MultiDiGraph :=
  Graph (OD.upsert n (fun old => a ∪ old) a (g_nodes G)) (g_edges G).

(** [G.add_edge(u, v, **a)]: missing endpoints are created without
    attributes, then the edge is stored under a fresh key. *)
Definition add_edge (u v : string) (a : attrs) (G : MultiDiGraph) : MultiDiGraph :=
  let ns := OD.upsert u (fun old => old) ∅ (g_nodes G) in
  let ns := OD.upsert v (fun old => old) ∅ ns in
  Graph ns (g_edges G ++ [Edge u v a]).

(** The keys of a dict filled in the order [l]: each value once, at its
    first occurrence. *)
Fixpoint first_seen (seen l : list string) : list string :=
  match l with
  | [] => []
  | x :: l' =>
      if bool_decide (x ∈ seen) then first_seen seen l'
      else x :: first_seen (x :: seen) l'
  end.

Definition from_node (u : string) (e : edge) : bool := String.eqb (e_src e) u.
Definition to_node (v : string) (e : edge) : bool := String.eqb (e_dst e) v.

(** [G.out_edges(u, data=True)]: successors in the order of their first
    edge, parallel edges in key order. *)
Definition out_edges (G : MultiDiGraph) (u : string) : list edge :=
  let es := List.filter (from_node u) (g_edges G) in
  flat_map (fun v => List.filter (to_node v) es) (first_seen [] (map e_dst es)).

(** [G.in_edges(v, data=True)] *)
Definition in_edges (G : MultiDiGraph) (v : string) : list edge :=
  let es := List.filter (to_node v) (g_edges G) in
  flat_map (fun u => List.filter (from_node u) es) (first_seen [] (map e_src es)).

(** [G.edges(data=True)]: node by node in node order. *)
Definition edges (G : MultiDiGraph) : list edge :=
  flat_map (fun n => out_edges G n.1) (g_nodes G).

(** [d.get(k)] *)
Definition get (d : attrs) (k : string) : pyval := default PyNone (d !! k).

(** [d[k]] *)
Definition getitem (d : attrs) (k : string) : result pyval :=
  match d !! k with
  | Some v => Ok v
  | None => Raise (KeyError k)
  end.

(** [G.nodes[n].get(k, dflt)] *)
Definition node_get (G : MultiDiGraph) (n k : string) (dflt : pyval)
  : result pyval :=
  match OD.get n (g_nodes G) with
  | Some a => Ok (default dflt (a !! k))
  | None => Raise (KeyError n)
  end.

(** ** Stable sorting *)

Section Sort.
Context {A : Type} (le : A → A → bool).

Fixpoint insert_sorted (x : A) (l : list A) : list A :=
    match l with
    | [] => [x]
    | y :: l' => if le x y then x :: y :: l' else y :: insert_sorted x l'
    end.

  (** Elements that compare equal keep their order. *)
Definition stable_sort (l : list A) : list A := foldr insert_sorted [] l.
End Sort.

(** ** GraphBuilder: [_build_nx] *)

(** One row of [events.csv]. *)
Record row : Type := Row {
  timestamp : Z;
  service_name : string;
  message : string;
  corr_key : string;
  event_point : string
}.

Definition to_datetime (t : Z) : Z := t.

(** [Timedelta.total_seconds()] *)
Definition total_seconds (d : Z) : Q := (d # 1000000000)%Q.

(** [df.sort_values("timestamp")]. pandas promises no order among rows
    of equal timestamp with its default sort; the model keeps them in
    input order. The properties below use only that the result is a
    sorted rearrangement of the input. *)
Definition sort_values (df : list row) : list row :=
  stable_sort (fun r1 r2 => Z.leb (timestamp r1) (timestamp r2)) df.

Definition rel_attrs (rel : string) (ts : Z) : attrs :=
  {[ "rel" := PyStr rel; "ts" := PyTs ts ]}.

(** The [DELIVERED] edge data of lines 54-59. *)
Definition delivered_attrs (last_by_id : gmap string string) (r : row) : attrs :=
  let ts := to_datetime (timestamp r) in
  let lag :=
    if bool_decide (last_by_id !! corr_key r = Some QUEUE_NAME)
    then PyFloat (total_seconds (ts - to_datetime (timestamp r)))
    else PyNone in
  {[ "rel" := PyStr "DELIVERED"; "lag" := lag; "ts" := PyTs ts ]}.

(** The body of [for _, row in df.iterrows()]. *)
Definition row_step (st : MultiDiGraph * gmap string string) (r : row)
  : MultiDiGraph * gmap string string :=
  let '(G, last_by_id) := st in
  let eid := event_point r in
  let did := corr_key r in
  let svc := service_name r in
  let ts := to_datetime (timestamp r) in
  let G := add_node did {[ "type" := PyStr "DataInstance" ]} G in
  let G := add_node eid
             {[ "type" := PyStr "EventPoint"; "svc" := PyStr svc;
                "ts" := PyTs ts;
                "raw" := PyStr (String.substring 0 250 (message r)) ]} G in
  let G := add_edge eid did (rel_attrs "PROCESSED" ts) G in
  let msg := message r in
  let '(G, last_by_id) :=
    if Re.search PUB_RE msg then
      let G := add_node QUEUE_NAME {[ "type" := PyStr "Queue" ]} G in
      let G := add_edge eid QUEUE_NAME (rel_attrs "PUBLISHED" ts) G in
      (G, <[did := QUEUE_NAME]> last_by_id)
    else if Re.search CON_RE msg then
      let d := delivered_attrs last_by_id r in
      let G := add_node QUEUE_NAME {[ "type" := PyStr "Queue" ]} G in
      let G := add_edge QUEUE_NAME eid d G in
      (G, last_by_id)
    else (G, last_by_id) in
  let G :=
    match last_by_id !! (did +:+ "@prev") with
    | Some prev =>
        if (negb (String.eqb prev "") && negb (String.eqb prev eid))%bool
        then add_edge prev eid {[ "rel" := PyStr "PRECEDES" ]} G
        else G
    | None => G
    end in
  (G, <[did +:+ "@prev" := eid]> last_by_id).

(** The loop over rows taken in the given order. *)
Definition build_loop (rows : list row) : MultiDiGraph * gmap string string :=
  foldl row_step (empty_graph, ∅) rows.

Definition _build_nx (df : list row) : MultiDiGraph :=
  (build_loop (sort_values df)).1.

(** ** AnomalyScanner: [_edge_lag] and [scan] *)

(** [statistics.median] raises [StatisticsError] on no data; it is the
    only place of the scanner that could, so it is reported as a
    [ValueError] ([StatisticsError] is a subclass of it). *)
Definition qsort (data : list Q) : list Q := stable_sort Qle_bool data.

Definition median (data : list Q) : result Q :=
  let s := qsort data in
  let n := List.length s in
  if Nat.eqb n 0 then Raise ValueError
  else if Nat.odd n then Ok (nth (n / 2) s 0%Q)
  else Ok ((nth (n / 2 - 1) s 0%Q + nth (n / 2) s 0%Q) / 2)%Q.

(** [max(items, key=key)]: the first item whose key is largest. *)
Fixpoint max_from {A} (key : A → result Q) (best : A) (kbest : Q)
    (items : list A) : result A :=
  match items with
  | [] => Ok best
  | x :: items' =>
      k ← key x;
      if Qle_bool k kbest then max_from key best kbest items'
      else max_from key x k items'
  end.

Definition max_by {A} (key : A → result Q) (items : list A) : result A :=
  match items with
  | [] => Raise ValueError
  | x :: items' => k ← key x; max_from key x k items'
  end.

Record Findings : Type := MkFindings {
  bottleneck : option (string * list Q);
  lost : list string;
  slow_hops : list (string * string * Q)
}.

Section Scanner.

  (** [float(s)] on a [str]: the number it denotes, or [None] where
      Python raises [ValueError]. *)
Variable float_of_str : string → option Q.

  (** [float(v)] *)
Definition py_float (v : pyval) : result Q :=
    match v with
    | PyNone => Raise TypeError
    | PyFloat q => Ok q
    | PyStr s =>
        match float_of_str s with
        | Some q => Ok q
        | None => Raise ValueError
        end
    | PyTs _ => Raise ValueError
    | PyObj _ => Raise TypeError
    end.

Definition _edge_lag (e_data : attrs) : result Q :=
    match py_float (default (PyFloat 0) (e_data !! "lag")) with
    | Ok q => Ok q
    | Raise TypeError => Ok 0%Q
    | Raise ValueError => Ok 0%Q
    | Raise e => Raise e
    end.

  (** [d["rel"] == "DELIVERED" and d.get("lag")] *)
Definition delivered_with_lag (d : attrs) : result bool :=
    rel ← getitem d "rel";
    Ok (py_eq_str rel "DELIVERED" && truthy (get d "lag"))%bool.

Definition hop_key (u v : string) : string := u +:+ "->" +:+ v.

  (** Lines 30-33: [lags[key].append(_edge_lag(d))] on a
      [defaultdict(list)]. *)
Definition lags_body (e : edge) (lags : list (string * list Q))
    : result (list (string * list Q)) :=
    b ← delivered_with_lag (e_data e);
    if b : bool then
      lag ← _edge_lag (e_data e);
      Ok (OD.upsert (hop_key (e_src e) (e_dst e)) (fun l : list Q => (l ++ [lag])%list) [lag] lags)
    else Ok lags.

Definition collect_lags (G : MultiDiGraph) : result (list (string * list Q)) :=
    for_each lags_body (edges G) [].

  (** Lines 36-38. *)
Definition find_bottleneck (lags : list (string * list Q))
    : result (option (string * list Q)) :=
    match lags with
    | [] => Ok None
    | _ :: _ => b ← max_by (fun kv => median kv.2) lags; Ok (Some b)
    end.

  (** Lines 57-60. *)
Definition published_body (G : MultiDiGraph) (e : edge) (published : bool)
    : result bool :=
    ty ← node_get G (e_dst e) "type" PyNone;
    if py_eq_str ty "Queue" then
      rel ← getitem (e_data e) "rel";
      Ok (if py_eq_str rel "PUBLISHED" then true else published)
    else Ok published.

  (** Lines 63-66. *)
Definition consumed_body (G : MultiDiGraph) (e : edge) (consumed : bool)
    : result bool :=
    ty ← node_get G (e_src e) "type" PyNone;
    if py_eq_str ty "Queue" then
      rel ← getitem (e_data e) "rel";
      Ok (if py_eq_str rel "DELIVERED" then true else consumed)
    else Ok consumed.

  (** Lines 50-66: the body of [for u, v in G.edges()]. *)
Definition touch_body (G : MultiDiGraph) (data_node : string) (e : edge)
      (flags : bool * bool) : result (bool * bool) :=
    if String.eqb (e_dst e) data_node then
      let event_node := e_src e in
      event_type ← node_get G event_node "type" (PyStr "");
      if py_eq_str event_type "EventPoint" then
        published ← for_each (published_body G) (out_edges G event_node) flags.1;
        consumed ← for_each (consumed_body G) (in_edges G event_node) flags.2;
        Ok (published, consumed)
      else Ok flags
    else Ok flags.

  (** Lines 42-70: the body of [for data_node, d in G.nodes(data=True)]. *)
Definition lost_body (G : MultiDiGraph) (n : string * attrs)
      (lost : list string) : result (list string) :=
    ty ← getitem n.2 "type";
    if negb (py_eq_str ty "DataInstance") then Ok lost
    else
      flags ← for_each (touch_body G n.1) (edges G) (false, false);
      if (flags.1 && negb flags.2)%bool then Ok (lost ++ [n.1])%list else Ok lost.

Definition find_lost (G : MultiDiGraph) : result (list string) :=
    for_each (lost_body G) (g_nodes G) [].

  (** Lines 74-78. *)
Definition slow_body (e : edge) (slow : list (string * string * Q))
    : result (list (string * string * Q)) :=
    b ← delivered_with_lag (e_data e);
    if b : bool then
      lag ← _edge_lag (e_data e);
      if Qle_bool lag 1 then Ok slow
      else Ok (slow ++ [(e_src e, e_dst e, lag)])%list
    else Ok slow.

  (** [slow_hops.sort(key=lambda x: x[2], reverse=True)] *)
Definition sort_slow (slow : list (string * string * Q))
    : list (string * string * Q) :=
    stable_sort (fun x y => Qle_bool y.2 x.2) slow.

Definition find_slow_hops (G : MultiDiGraph)
    : result (list (string * string * Q)) :=
    slow ← for_each slow_body (edges G) [];
    Ok (sort_slow slow).

  (** What [scan] computes before it formats the report. *)
Definition scan_findings (G : MultiDiGraph) : result Findings :=
    lags ← collect_lags G;
    b ← find_bottleneck lags;
    lost ← find_lost G;
    slow ← find_slow_hops G;
    Ok (MkFindings b lost slow).

  (** *** The markdown report *)

  (** Formatting that the model does not compute: the text of
      [dt.datetime.utcnow().isoformat()], of a float under [:.2f], of an
      attribute value under [str], and [statistics.stdev]. *)
Variable now : string.
Variable fmt2 : Q → string.
Variable py_str : pyval → string.
Variable stdev : list Q → Q.

Definition nl : string := String (ascii_of_nat 10) EmptyString.

Definition qsum (vals : list Q) : Q := foldl Qplus 0%Q vals.
Definition qmin (vals : list Q) : Q := foldl Qmin (hd 0%Q vals) vals.
Definition qmax (vals : list Q) : Q := foldl Qmax (hd 0%Q vals) vals.

Definition bottleneck_lines (b : option (string * list Q))
    : result (list string) :=
    match b with
    | Some (name, vals) =>
        median_lag ← median vals;
        let n := List.length vals in
        Ok ([ "`" +:+ name +:+ "` median lag **" +:+ fmt2 median_lag +:+ "s** " ]
            ++ (if Nat.ltb 1 n then
                  [ nl +:+ "- Minimum lag: " +:+ fmt2 (qmin vals) +:+ "s";
                    "- Maximum lag: " +:+ fmt2 (qmax vals) +:+ "s";
                    "- Average lag: "
                      +:+ fmt2 (qsum vals / inject_Z (Z.of_nat n)) +:+ "s" ]
                  ++ (if Nat.ltb 2 n then
                        [ "- Standard deviation: " +:+ fmt2 (stdev vals) +:+ "s" ]
                      else [])
                else []))%list
    | None => Ok [ "_No publish to consume edges with lag found._" ]
    end.

Definition lost_lines (lost : list string) : list string :=
    match lost with
    | [] => [ "_No lost messages detected._" ]
    | _ :: _ =>
        let n := List.length lost in
        ([ "**" +:+ pretty n +:+ " lost DataInstances:**" ]
         ++ map (fun d => "- " +:+ d) (take 20 lost)
         ++ (if Nat.ltb 20 n then
               [ "- _(and " +:+ pretty (n - 20)%nat +:+ " more...)_" ]
             else []))%list
    end.

Definition slow_line (G : MultiDiGraph) (h : string * string * Q)
    : result string :=
    let '(u, v, lag) := h in
    to_svc ← node_get G v "svc" (PyStr "unknown");
    Ok ("- `" +:+ u +:+ " to " +:+ v +:+ "` (" +:+ py_str to_svc +:+ "): **"
        +:+ fmt2 lag +:+ "s**").

Definition slow_lines (G : MultiDiGraph) (slow : list (string * string * Q))
    : result (list string) :=
    match slow with
    | [] => Ok [ "_No significant delivery delays detected._" ]
    | _ :: _ =>
        let n := List.length slow in
        ls ← for_each (fun h acc => l ← slow_line G h; Ok (acc ++ [l])%list)
               (take 10 slow) [];
        Ok ([ "**" +:+ pretty n +:+ " slow message deliveries:**" ]
            ++ ls
            ++ (if Nat.ltb 10 n then
                  [ "- _(and " +:+ pretty (n - 10)%nat +:+ " more...)_" ]
                else []))%list
    end.

Definition render (G : MultiDiGraph) (f : Findings) : result string :=
    bl ← bottleneck_lines (bottleneck f);
    sl ← slow_lines G (slow_hops f);
    Ok (String.concat nl
          ([ "# MicroLink Anomaly Report";
             "_Generated " +:+ now +:+ "Z_" +:+ nl;
             "## Bottleneck hop" ]
           ++ bl
           ++ [ nl +:+ "## Lost messages" ] ++ lost_lines (lost f)
           ++ [ nl +:+ "## Slow hops" ] ++ sl)%list).

Definition scan (G : MultiDiGraph) : result string :=
    f ← scan_findings G;
    render G f.

End Scanner.


(** ** Event-point naming of [normalize_events.py] *)

(** [llm_event_names] on its pattern-matching path (the one taken without
    an OpenAI key, and after an API error). *)
Definition simple_event_name (line : string) : string :=
  let l := Re.lower line in
  if Re.contains "publish" l then "publishEvent"
  else if Re.contains "consum" l then "consumeEvent"
  else if Re.contains "charge" l then "chargeCard"
  else if Re.contains "ship" l then "shipOrder"
  else "processEvent".

Definition llm_event_names (log_lines : list string) : list string :=
  map simple_event_name log_lines.

(** [batch(iterable, size)] *)
Fixpoint batch_fuel {A} (fuel size : nat) (l : list A) : list (list A) :=
  match fuel with
  | O => []
  | S fuel' =>
      match take size l with
      | [] => []
      | chunk => chunk :: batch_fuel fuel' size (drop size l)
      end
  end.

Definition batch {A} (l : list A) (size : nat) : list (list A) :=
  batch_fuel (List.length l) size l.

(** A row of [keep]: a log row with its correlation key. *)
Record keyed_row : Type := KeyedRow {
  k_timestamp : Z;
  k_service : string;
  k_message : string;
  k_corr_key : string
}.

(** Lines 97-105: the message-to-name mapping. *)
Definition name_mapping (demo : bool) (log_sample : nat)
    (keep : list keyed_row) : gmap string string :=
  let unique_msgs := first_seen [] (map k_message keep) in
  let sample := if demo then unique_msgs else take log_sample unique_msgs in
  foldl (fun mapping chunk =>
           foldl (fun m kv => <[kv.1 := kv.2]> m) mapping
                 (zip chunk (llm_event_names chunk)))
        ∅ (batch sample 25).

(** Lines 107-110: the [event_point] column. *)
Definition assign_event_points (demo : bool) (log_sample : nat)
    (keep : list keyed_row) : list row :=
  let mapping := name_mapping demo log_sample keep in
  map (fun k =>
         Row (k_timestamp k) (k_service k) (k_message k) (k_corr_key k)
             (k_service k +:+ "_"
                +:+ default "unknownEvent" (mapping !! k_message k)))
      keep.



(** ** Correlation keys: [extract_corr_key] *)

Module Key.

(** A pattern of the form [\bNAME(CLASS+)], compiled without flags: the
    name is matched as it is written. *)
Record pattern : Type := Pattern {
  name : string;
  class : ascii → bool
}.

(** [[A-Za-z0-9-]] *)
Definition is_token (c : ascii) : bool :=
  (Re.is_upper c || Re.is_lower c || Re.is_digit c || Ascii.eqb c "-")%bool.

(** The longest run of class characters at the start of [s]: [CLASS+] is
    greedy and nothing follows it in the pattern. *)
Fixpoint run (cls : ascii → bool) (s : string) : string :=
  match s with
  | String c s' => if cls c then String c (run cls s') else EmptyString
  | EmptyString => EmptyString
  end.

(** [s] without the literal [lit] at its start. *)
Fixpoint after_literal (lit s : string) : option string :=
  match lit with
  | EmptyString => Some s
  | String a lit' =>
      match s with
      | String c s' => if Ascii.eqb a c then after_literal lit' s' else None
      | EmptyString => None
      end
  end.

(** The text matched at the position whose previous character is [prev]
    and whose remaining subject is [s]. *)
Definition match_at (pat : pattern) (prev : option ascii) (s : string)
  : option string :=
  if xorb (Re.word_before prev) (Re.word_after s) then
    match after_literal (name pat) s with
    | Some rest =>
        match run (class pat) rest with
        | EmptyString => None
        | digits => Some (name pat +:+ digits)
        end
    | None => None
    end
  else None.

Fixpoint search_from (pat : pattern) (prev : option ascii) (s : string)
  : option string :=
  match match_at pat prev s with
  | Some m => Some m
  | None =>
      match s with
      | EmptyString => None
      | String c s' => search_from pat (Some c) s'
      end
  end.

(** [m.group(0)] for [m = re.search(pat, msg)], [None] without a match. *)
Definition search (pat : pattern) (msg : string) : option string :=
  search_from pat None msg.

End Key.

Definition CORR_PATTERNS : list Key.pattern :=
  [ Key.Pattern "orderId=" Re.is_digit;
    Key.Pattern "paymentId=" Key.is_token;
    Key.Pattern "userId=" Key.is_token ].

(** The loop of [extract_corr_key] over the patterns. *)
Fixpoint first_key (pats : list Key.pattern) (msg : string) : option string :=
  match pats with
  | [] => None
  | pat :: pats' =>
      match Key.search pat msg with
      | Some m => Some m
      | None => first_key pats' msg
      end
  end.

Definition extract_corr_key (msg : string) : option string :=
  first_key CORR_PATTERNS msg.

(** The characters of a string. *)
Definition chars (s : string) : list ascii := list_ascii_of_string s.

(** ** What one loop iteration adds

    The edges and the table entries of one [row_step], read off its three
    parts; [row_step_edges] and [row_step_state] below relate them to the
    loop body. *)

Definition processed_edge (r : row) : edge :=
  Edge (event_point r) (corr_key r)
       (rel_attrs "PROCESSED" (to_datetime (timestamp r))).

Definition hop_edges (last_by_id : gmap string string) (r : row) : list edge :=
  if Re.search PUB_RE (message r) then
    [ Edge (event_point r) QUEUE_NAME
           (rel_attrs "PUBLISHED" (to_datetime (timestamp r))) ]
  else if Re.search CON_RE (message r) then
    [ Edge QUEUE_NAME (event_point r) (delivered_attrs last_by_id r) ]
  else [].

Definition hop_state (last_by_id : gmap string string) (r : row)
  : gmap string string :=
  if Re.search PUB_RE (message r) then <[corr_key r := QUEUE_NAME]> last_by_id
  else last_by_id.

Definition precedes_edges (last_by_id : gmap string string) (r : row)
  : list edge :=
  match last_by_id !! (corr_key r +:+ "@prev") with
  | Some prev =>
      if (negb (String.eqb prev "") && negb (String.eqb prev (event_point r)))%bool
      then [ Edge prev (event_point r) {[ "rel" := PyStr "PRECEDES" ]} ]
      else []
  | None => []
  end.

Definition has_rel (rel : string) (e : edge) : bool :=
  py_eq_str (get (e_data e) "rel") rel.

(** ** Inputs used below *)

(** Scenario A of the design document: three events of key [orderId=1]
    at 0 s, 1 s and 5 s, named by [assign_event_points]. *)
Definition scenario_A_log : list keyed_row :=
  [ KeyedRow 0 "orders" "processing order" "orderId=1";
    KeyedRow 1000000000 "orders" "publish to shipping" "orderId=1";
    KeyedRow 5000000000 "orders" "consume shipping ack" "orderId=1" ].

Definition scenario_A : list row := assign_event_points true 200 scenario_A_log.

(** A publish at 1 s and its consume at 5 s. *)
Definition publish_then_consume : list row :=
  [ Row 1000000000 "orders" "publish orderId=7" "orderId=7" "orders_publishEvent";
    Row 5000000000 "shipping" "consume orderId=7" "orderId=7" "shipping_consumeEvent" ].


(** Two log lines of one service that get the same action name. *)
Definition repeated_action_log : list keyed_row :=
  [ KeyedRow 0 "orders" "publish orderId=1" "orderId=1";
    KeyedRow 1000000000 "orders" "publish orderId=2" "orderId=2" ].


(** Scenario C of the design document: two DELIVERED edges to one
    consumer with lags 2.0 and 4.0, and one to another with lag 1.0. *)
Definition delivered (lag : pyval) (ts : Z) : attrs :=
  {[ "rel" := PyStr "DELIVERED"; "lag" := lag; "ts" := PyTs ts ]}.

Definition scenario_C : MultiDiGraph :=
  add_edge QUEUE_NAME "billing_consumeEvent" (delivered (PyFloat 1) 3)
    (add_edge QUEUE_NAME "shipping_consumeEvent" (delivered (PyFloat 4) 2)
       (add_edge QUEUE_NAME "shipping_consumeEvent" (delivered (PyFloat 2) 1)
          (add_node "billing_consumeEvent" {[ "type" := PyStr "EventPoint" ]}
             (add_node "shipping_consumeEvent" {[ "type" := PyStr "EventPoint" ]}
                (add_node QUEUE_NAME {[ "type" := PyStr "Queue" ]}
                   empty_graph))))).

Definition scenario_C_findings : Findings :=
  MkFindings
    (Some ("order.events->shipping_consumeEvent", [ 2%Q; 4%Q ]))
    []
    [ (QUEUE_NAME, "shipping_consumeEvent", 4%Q);
      (QUEUE_NAME, "shipping_consumeEvent", 2%Q) ].




(** DELIVERED edges whose [lag] is a non-numeric string and a list. *)
Definition malformed_lags : MultiDiGraph :=
  add_edge QUEUE_NAME "billing_consumeEvent" (delivered (PyObj true) 2)
    (add_edge QUEUE_NAME "shipping_consumeEvent" (delivered (PyStr "soon") 1)
       (add_node "billing_consumeEvent" {[ "type" := PyStr "EventPoint" ]}
          (add_node "shipping_consumeEvent" {[ "type" := PyStr "EventPoint" ]}
             (add_node QUEUE_NAME {[ "type" := PyStr "Queue" ]}
                empty_graph)))).


(** A [float] parser that knows no numeric string; enough where no [lag]
    is a string that denotes a number. *)
Definition no_float : string → option Q := fun _ => None.

(** ** Predicates used in the statements *)

(** Every node of type EventPoint has its id in [l]. *)
Definition event_points_within (l : list string) (G : MultiDiGraph) : Prop :=
  ∀ n a, (n, a) ∈ g_nodes G →
         a !! "type" = Some (PyStr "EventPoint") → n ∈ l.

(** The node [k] exists and has type [ty]. *)
Definition node_has_type (G : MultiDiGraph) (k ty : string) : Prop :=
  ∃ a, OD.get k (g_nodes G) = Some a ∧ a !! "type" = Some (PyStr ty).

(** The test [d["rel"] == "DELIVERED" and d.get("lag")] holds. *)
Definition timed_delivery (e : edge) : Prop :=
  e_data e !! "rel" = Some (PyStr "DELIVERED") ∧
  truthy (get (e_data e) "lag") = true.

(** [h] is the entry that the edge [e] contributes to the slow-hop list. *)
Definition slow_entry (float_of_str : string → option Q) (e : edge)
    (h : string * string * Q) : Prop :=
  timed_delivery e ∧ h.1.1 = e_src e ∧ h.1.2 = e_dst e ∧
  _edge_lag float_of_str (e_data e) = Ok h.2 ∧ (1 < h.2)%Q.








(** What networkx maintains, and what the scanner reads: every edge has
    both endpoints among the nodes, every edge has a [rel], every node a
    [type]. *)
Record scannable (G : MultiDiGraph) : Prop := {
  endpoints_exist :
    ∀ e, e ∈ g_edges G →
         is_Some (OD.get (e_src e) (g_nodes G)) ∧
         is_Some (OD.get (e_dst e) (g_nodes G));
  edges_have_rel : ∀ e, e ∈ g_edges G → is_Some (e_data e !! "rel");
  nodes_have_type : ∀ n a, (n, a) ∈ g_nodes G → is_Some (a !! "type")
}.

(** [n in G] *)
Definition has_node (G : MultiDiGraph) (n : string) : Prop :=
  is_Some (OD.get n (g_nodes G)).

(** What the fold keeps true of the graph and its table: the graph can be
    scanned, and every id stored in [last_by_id] is a node. *)
Definition build_inv (st : MultiDiGraph * gmap string string) : Prop :=
  scannable st.1 ∧ ∀ k v, st.2 !! k = Some v → has_node st.1 v.

(** The event point of the last row of [rows] that has the key [k]. *)
Definition last_event_point (rows : list row) (k : string) : option string :=
  foldl (fun acc r =>
           if String.eqb (corr_key r) k then Some (event_point r) else acc)
        None rows.

(** The PRECEDES edge from the event point [prev] to the one of [r]. *)
Definition timeline_link (prev : option string) (r : row) : list edge :=
  match prev with
  | Some p =>
      if (negb (String.eqb p "") && negb (String.eqb p (event_point r)))%bool
      then [ Edge p (event_point r) {[ "rel" := PyStr "PRECEDES" ]} ]
      else []
  | None => []
  end.

(** The messages that get a name: all the distinct ones in demo mode,
    the first [log_sample] distinct ones otherwise. *)
Definition named_sample (demo : bool) (log_sample : nat)
    (keep : list keyed_row) : list string :=
  let unique_msgs := first_seen [] (map k_message keep) in
  if demo then unique_msgs else take log_sample unique_msgs.

(** A position of the subject put in lower case. *)
Definition lower_pos (p : Re.pos) : Re.pos :=
  (option_map Re.lower_char p.1, Re.lower p.2).

(** * Properties *)

(** ** Hop classification *)

Example classify_processing : classify "processing order" = Consume.
Proof. reflexivity. Qed.

Example classify_publish : classify "publish to shipping" = Publish.
Proof. reflexivity. Qed.

Example classify_consume : classify "consume shipping ack" = Consume.
Proof. reflexivity. Qed.

Example classify_word_boundary : classify "republished twice" = Other.
Proof. reflexivity. Qed.

Example classify_ignores_case : classify "PUBLISHED order" = Publish.
Proof. reflexivity. Qed.

Example scenario_A_rows :
  scenario_A =
  [ Row 0 "orders" "processing order" "orderId=1" "orders_processEvent";
    Row 1000000000 "orders" "publish to shipping" "orderId=1" "orders_publishEvent";
    Row 5000000000 "orders" "consume shipping ack" "orderId=1" "orders_consumeEvent" ].
Proof. vm_compute. reflexivity. Qed.

(** ** Scenario A and the empty input *)



(** C8: the empty event sequence builds the graph without nodes and
    edges, and the scanner returns, for that graph, the findings with no
    bottleneck, no lost message and no slow hop, rendered as the report
    with the three "no data" lines. *)
Theorem empty_input_empty_report :
  _build_nx [] = empty_graph ∧
  g_nodes (_build_nx []) = [] ∧ g_edges (_build_nx []) = [] ∧
  ∀ float_of_str now fmt2 py_str stdev,
    scan_findings float_of_str (_build_nx []) = Ok (MkFindings None [] []) ∧
    scan float_of_str now fmt2 py_str stdev (_build_nx [])
    = Ok (String.concat nl
            [ "# MicroLink Anomaly Report";
              "_Generated " +:+ now +:+ "Z_" +:+ nl;
              "## Bottleneck hop";
              "_No publish to consume edges with lag found._";
              nl +:+ "## Lost messages";
              "_No lost messages detected._";
              nl +:+ "## Slow hops";
              "_No significant delivery delays detected._" ]).
Proof.
  repeat split; reflexivity.
Qed.

(** ** The loop body, part by part *)

Lemma g_edges_add_node n a G : g_edges (add_node n a G) = g_edges G.
Proof. reflexivity. Qed.

Lemma g_edges_add_edge u v a G :
  g_edges (add_edge u v a G) = (g_edges G ++ [Edge u v a])%list.
Proof. reflexivity. Qed.

Lemma row_step_edges G last_by_id r :
  g_edges (row_step (G, last_by_id) r).1
  = (g_edges G ++ processed_edge r :: hop_edges last_by_id r
       ++ precedes_edges (hop_state last_by_id r) r)%list.
Proof.
  unfold row_step, hop_edges, hop_state, precedes_edges, processed_edge.
  destruct (Re.search PUB_RE (message r));
    [| destruct (Re.search CON_RE (message r))];
    (match goal with
     | |- context [?m !! (corr_key r +:+ "@prev")] =>
         destruct (m !! (corr_key r +:+ "@prev")) as [prev|]
     end;
     [destruct (negb (String.eqb prev "") && negb (String.eqb prev (event_point r)))%bool |]);
    cbn [fst snd];
    repeat (rewrite g_edges_add_edge || rewrite g_edges_add_node);
    rewrite <- ?app_assoc; reflexivity.
Qed.

Lemma row_step_state G last_by_id r :
  (row_step (G, last_by_id) r).2
  = <[corr_key r +:+ "@prev" := event_point r]> (hop_state last_by_id r).
Proof.
  unfold row_step, hop_state.
  destruct (Re.search PUB_RE (message r));
    [| destruct (Re.search CON_RE (message r))]; reflexivity.
Qed.

Lemma build_loop_snoc rows r :
  build_loop (rows ++ [r]) = row_step (build_loop rows) r.
Proof. unfold build_loop. apply foldl_snoc. Qed.

(** ** The hand-off table *)

Lemma append_ne_self (s t : string) : t ≠ "" → s +:+ t ≠ s.
Proof.
  intros Ht. induction s as [|c s IH]; simpl.
  - exact Ht.
  - intros H. injection H as H. exact (IH H).
Qed.

Lemma prev_slot_ne_key (k : string) : k +:+ "@prev" ≠ k.
Proof. apply append_ne_self. discriminate. Qed.







Lemma delivered_attrs_rel last_by_id r :
  delivered_attrs last_by_id r !! "rel" = Some (PyStr "DELIVERED").
Proof. unfold delivered_attrs. apply lookup_insert_eq. Qed.




(** ** The lag of a DELIVERED edge *)

Lemma rel_attrs_rel rel ts : rel_attrs rel ts !! "rel" = Some (PyStr rel).
Proof. unfold rel_attrs. apply lookup_insert_eq. Qed.

Lemma has_rel_lookup rel e :
  has_rel rel e = true ↔ e_data e !! "rel" = Some (PyStr rel).
Proof.
  unfold has_rel, get, py_eq_str.
  destruct (e_data e !! "rel") as [[| | s | |]|]; simpl;
    try (split; [discriminate | intros H; discriminate H || congruence]).
  split.
  - intros H%String.eqb_eq. congruence.
  - intros [= ->]. apply String.eqb_refl.
Qed.


Lemma precedes_edges_rel last_by_id r e :
  e ∈ precedes_edges last_by_id r →
  e_data e !! "rel" = Some (PyStr "PRECEDES").
Proof.
  unfold precedes_edges.
  destruct (last_by_id !! (corr_key r +:+ "@prev")) as [prev|];
    [| intros H; inversion H].
  destruct (negb (String.eqb prev "") && negb (String.eqb prev (event_point r)))%bool;
    [| intros H; inversion H].
  intros ->%list_elem_of_singleton. apply lookup_insert_eq.
Qed.


(** C1 on a publish at 1 s followed by its consume at 5 s: the DELIVERED
    edge carries the lag 0, whereas 4 seconds elapsed between the two. *)
Theorem publish_then_consume_lag_is_zero :
  classify "publish orderId=7" = Publish ∧
  classify "consume orderId=7" = Consume ∧
  List.filter (has_rel "DELIVERED") (g_edges (_build_nx publish_then_consume))
  = [ Edge QUEUE_NAME "shipping_consumeEvent"
        {[ "rel" := PyStr "DELIVERED"; "lag" := PyFloat (0 # 1000000000);
           "ts" := PyTs 5000000000 ]} ] ∧
  (total_seconds (5000000000 - 1000000000) == 4)%Q ∧
  ¬ (0 # 1000000000 == total_seconds (5000000000 - 1000000000))%Q.
Proof.
  repeat split; try (vm_compute; reflexivity).
  intros H. vm_compute in H. discriminate H.
Qed.

(** ** Stable insertion sort *)

Section SortFacts.
Context {A : Type} (le : A → A → bool).
Hypothesis le_total : ∀ x y, le x y = true ∨ le y x = true.

Let R (x y : A) : Prop := le x y = true.

Lemma insert_sorted_perm x l : insert_sorted le x l ≡ₚ x :: l.
  Proof.
    induction l as [|y l IH]; simpl; [reflexivity |].
    destruct (le x y); [reflexivity |].
    rewrite IH. apply Permutation_swap.
  Qed.

Lemma stable_sort_perm l : stable_sort le l ≡ₚ l.
  Proof.
    induction l as [|x l IH]; simpl; [reflexivity |].
    rewrite insert_sorted_perm, IH. reflexivity.
  Qed.

Lemma insert_sorted_HdRel x y l :
    R y x → HdRel R y l → HdRel R y (insert_sorted le x l).
  Proof.
    intros Hyx Hl. destruct l as [|z l]; simpl.
    - constructor. exact Hyx.
    - destruct (le x z); constructor; [exact Hyx |].
      inversion Hl; assumption.
  Qed.

Lemma insert_sorted_Sorted x l :
    Sorted R l → Sorted R (insert_sorted le x l).
  Proof.
    induction 1 as [|y l Hl IH Hhd]; simpl.
    - repeat constructor.
    - destruct (le x y) eqn:Hxy.
      + constructor; [constructor; assumption |]. constructor. exact Hxy.
      + constructor; [exact IH |].
        apply insert_sorted_HdRel; [| exact Hhd].
        destruct (le_total x y) as [H | H]; [congruence | exact H].
  Qed.

Lemma stable_sort_Sorted l : Sorted R (stable_sort le l).
  Proof.
    induction l as [|x l IH]; simpl; [constructor |].
    apply insert_sorted_Sorted. exact IH.
  Qed.

Lemma stable_sort_elem_of x l : x ∈ stable_sort le l ↔ x ∈ l.
  Proof. rewrite stable_sort_perm. reflexivity. Qed.
End SortFacts.

Lemma Sorted_weaken {A} (R1 R2 : A → A → Prop) l :
  (∀ x y, R1 x y → R2 x y) → Sorted R1 l → Sorted R2 l.
Proof.
  intros HR. induction 1 as [|x l Hl IH Hhd]; constructor; [exact IH |].
  destruct Hhd; constructor. apply HR. assumption.
Qed.

Lemma sort_values_perm df : sort_values df ≡ₚ df.
Proof. apply stable_sort_perm. Qed.


(** ** The order in which events are folded *)



(** ** Nodes and their types *)

Lemma elem_of_upsert {V} (k n : string) (f : V → V) (fresh a : V) d :
  (n, a) ∈ OD.upsert k f fresh d →
  (n, a) ∈ d ∨ (n = k ∧ (a = fresh ∨ ∃ a0, (k, a0) ∈ d ∧ a = f a0)).
Proof.
  induction d as [|[k' v] d IH]; simpl.
  - intros [= -> ->]%list_elem_of_singleton. right. split; [reflexivity | left; reflexivity].
  - destruct (String.eqb k' k) eqn:Hk.
    + apply String.eqb_eq in Hk as ->.
      intros [[= -> ->] | H]%elem_of_cons.
      * right. split; [reflexivity |]. right. exists v. split; [left | reflexivity].
      * left. right. exact H.
    + intros [[= -> ->] | H]%elem_of_cons; [left; left |].
      destruct (IH H) as [H' | (-> & [-> | (a0 & Ha0 & ->)])].
      * left. right. exact H'.
      * right. split; [reflexivity | left; reflexivity].
      * right. split; [reflexivity |]. right. exists a0. split; [right; exact Ha0 | reflexivity].
Qed.

Lemma get_upsert {V} (k n : string) (f : V → V) (fresh : V) d :
  OD.get n (OD.upsert k f fresh d)
  = if String.eqb k n
    then Some (match OD.get k d with Some a => f a | None => fresh end)
    else OD.get n d.
Proof.
  induction d as [|[k' v] d IH]; simpl.
  - destruct (String.eqb k n); reflexivity.
  - destruct (String.eqb k' k) eqn:Hk; simpl.
    + apply String.eqb_eq in Hk as ->. destruct (String.eqb k n); reflexivity.
    + rewrite IH. destruct (String.eqb k n) eqn:Hn; [| reflexivity].
      apply String.eqb_eq in Hn as <-. rewrite Hk. reflexivity.
Qed.

Lemma within_add_node_typed l n a ty G :
  a !! "type" = Some (PyStr ty) → ty ≠ "EventPoint" →
  event_points_within l G → event_points_within l (add_node n a G).
Proof.
  intros Ha Hty HG m b Hm Hb. unfold add_node in Hm. cbn [g_nodes] in Hm.
  apply elem_of_upsert in Hm as [Hm | (-> & [-> | (a0 & _ & ->)])].
  - exact (HG m b Hm Hb).
  - rewrite Ha in Hb. congruence.
  - rewrite (lookup_union_Some_l _ _ _ _ Ha) in Hb. congruence.
Qed.

Lemma within_add_node_member l n a G :
  n ∈ l → event_points_within l G → event_points_within l (add_node n a G).
Proof.
  intros Hn HG m b Hm Hb. unfold add_node in Hm. cbn [g_nodes] in Hm.
  apply elem_of_upsert in Hm as [Hm | (-> & _)]; [exact (HG m b Hm Hb) | exact Hn].
Qed.

Lemma within_add_edge l u v a G :
  event_points_within l G → event_points_within l (add_edge u v a G).
Proof.
  intros HG m b Hm Hb. unfold add_edge in Hm. cbn [g_nodes] in Hm.
  apply elem_of_upsert in Hm as [Hm | (-> & [-> | (a0 & Hm & ->)])].
  - apply elem_of_upsert in Hm as [Hm | (-> & [-> | (a0 & Hm & ->)])].
    + exact (HG m b Hm Hb).
    + rewrite lookup_empty in Hb. discriminate Hb.
    + exact (HG u a0 Hm Hb).
  - rewrite lookup_empty in Hb. discriminate Hb.
  - apply elem_of_upsert in Hm as [Hm | (-> & [-> | (a1 & Hm & ->)])].
    + exact (HG v a0 Hm Hb).
    + rewrite lookup_empty in Hb. discriminate Hb.
    + exact (HG u a1 Hm Hb).
Qed.

Lemma within_mono l l' G :
  (∀ n, n ∈ l → n ∈ l') →
  event_points_within l G → event_points_within l' G.
Proof. intros Hl HG n a Hn Ha. apply Hl. exact (HG n a Hn Ha). Qed.

Lemma within_row_step l G last_by_id r :
  event_points_within l G →
  event_points_within (l ++ [event_point r]) (row_step (G, last_by_id) r).1.
Proof.
  intros HG.
  assert (Hin : event_point r ∈ (l ++ [event_point r])%list)
    by (apply elem_of_app; right; left).
  apply (within_mono l (l ++ [event_point r])) in HG;
    [| intros n Hn; apply elem_of_app; left; exact Hn].
  unfold row_step.
  destruct (Re.search PUB_RE (message r));
    [| destruct (Re.search CON_RE (message r))];
    (match goal with
     | |- context [?m !! (corr_key r +:+ "@prev")] =>
         destruct (m !! (corr_key r +:+ "@prev")) as [prev|]
     end;
     [destruct (negb (String.eqb prev "") && negb (String.eqb prev (event_point r)))%bool |]);
    cbn [fst snd];
    repeat first
      [ apply within_add_edge
      | apply within_add_node_member; [exact Hin |]
      | eapply within_add_node_typed;
          [apply lookup_insert_eq | discriminate |] ];
    exact HG.
Qed.

Lemma within_build_loop rows :
  event_points_within (map event_point rows) (build_loop rows).1.
Proof.
  induction rows as [|r rows IH] using rev_ind.
  - intros n a H. inversion H.
  - rewrite build_loop_snoc, map_app. destruct (build_loop rows) as [G last_by_id].
    apply within_row_step. exact IH.
Qed.

Lemma has_type_add_node_same n a ty G :
  a !! "type" = Some (PyStr ty) → node_has_type (add_node n a G) n ty.
Proof.
  intros Ha. unfold node_has_type, add_node. cbn [g_nodes].
  rewrite get_upsert, String.eqb_refl. eexists. split; [reflexivity |].
  destruct (OD.get n (g_nodes G)); [| exact Ha].
  apply lookup_union_Some_l. exact Ha.
Qed.

Lemma has_type_add_node_other n a k ty G :
  n ≠ k → node_has_type G k ty → node_has_type (add_node n a G) k ty.
Proof.
  intros Hne (b & Hb & Hty). exists b. split; [| exact Hty].
  unfold add_node. cbn [g_nodes]. rewrite get_upsert.
  destruct (String.eqb n k) eqn:E; [| exact Hb].
  apply String.eqb_eq in E. contradiction.
Qed.

Lemma has_type_add_edge u v a k ty G :
  node_has_type G k ty → node_has_type (add_edge u v a G) k ty.
Proof.
  intros (b & Hb & Hty). exists b. split; [| exact Hty].
  unfold add_edge. cbn [g_nodes]. rewrite !get_upsert.
  destruct (String.eqb v k) eqn:Ev.
  - apply String.eqb_eq in Ev as ->.
    destruct (String.eqb u k) eqn:Eu.
    + apply String.eqb_eq in Eu as ->. rewrite Hb. reflexivity.
    + rewrite Hb. reflexivity.
  - destruct (String.eqb u k) eqn:Eu; [| exact Hb].
    apply String.eqb_eq in Eu as ->. rewrite Hb. reflexivity.
Qed.

Lemma has_type_row_step G last_by_id r k :
  event_point r ≠ k → k ≠ QUEUE_NAME →
  node_has_type G k "DataInstance" ∨ corr_key r = k →
  node_has_type (row_step (G, last_by_id) r).1 k "DataInstance".
Proof.
  intros Heid Hq Hk.
  assert (H1 : node_has_type
                 (add_node (corr_key r) {[ "type" := PyStr "DataInstance" ]} G)
                 k "DataInstance").
  { destruct (decide (corr_key r = k)) as [<- | Hne].
    - apply has_type_add_node_same. apply lookup_insert_eq.
    - destruct Hk as [Hk | Hk]; [| contradiction].
      apply has_type_add_node_other; assumption. }
  clear Hk. unfold row_step.
  destruct (Re.search PUB_RE (message r));
    [| destruct (Re.search CON_RE (message r))];
    (match goal with
     | |- context [?m !! (corr_key r +:+ "@prev")] =>
         destruct (m !! (corr_key r +:+ "@prev")) as [prev|]
     end;
     [destruct (negb (String.eqb prev "") && negb (String.eqb prev (event_point r)))%bool |]);
    cbn [fst snd];
    repeat first
      [ apply has_type_add_edge
      | apply has_type_add_node_other; [first [exact Heid | congruence] |] ];
    exact H1.
Qed.

Lemma has_type_build_loop rows :
  (∀ r r', r ∈ rows → r' ∈ rows → event_point r ≠ corr_key r') →
  (∀ r, r ∈ rows → corr_key r ≠ QUEUE_NAME) →
  ∀ r, r ∈ rows → node_has_type (build_loop rows).1 (corr_key r) "DataInstance".
Proof.
  induction rows as [|r0 rows IH] using rev_ind; intros Hdisj Hq r Hr.
  - inversion Hr.
  - rewrite build_loop_snoc.
    destruct (build_loop rows) as [G last_by_id] eqn:HG. cbn [fst] in IH.
    apply has_type_row_step.
    + apply Hdisj; [apply elem_of_app; right; left | exact Hr].
    + apply Hq. exact Hr.
    + apply elem_of_app in Hr as [Hr | ->%list_elem_of_singleton];
        [left | right; reflexivity].
      apply IH; [| | exact Hr].
      * intros r1 r2 H1 H2. apply Hdisj; apply elem_of_app; left; assumption.
      * intros r1 H1. apply Hq. apply elem_of_app. left. exact H1.
Qed.

(** ** PROCESSED edges *)

Lemma filter_andb {A} (f g : A → bool) l :
  List.filter (fun x => f x && g x)%bool l = List.filter f (List.filter g l).
Proof.
  induction l as [|x l IH]; simpl; [reflexivity |].
  destruct (g x); simpl.
  - rewrite andb_true_r. destruct (f x); rewrite IH; reflexivity.
  - rewrite andb_false_r. exact IH.
Qed.

Lemma filter_none {A} (f : A → bool) l :
  (∀ x, x ∈ l → f x = false) → List.filter f l = [].
Proof.
  induction l as [|x l IH]; intros H; simpl; [reflexivity |].
  rewrite (H x) by left. apply IH. intros y Hy. apply H. right. exact Hy.
Qed.

Lemma has_rel_false rel rel' e :
  e_data e !! "rel" = Some (PyStr rel') → rel' ≠ rel → has_rel rel e = false.
Proof.
  intros He Hne. destruct (has_rel rel e) eqn:E; [| reflexivity].
  apply has_rel_lookup in E. congruence.
Qed.

Lemma hop_edges_not_processed last_by_id r :
  List.filter (has_rel "PROCESSED") (hop_edges last_by_id r) = [].
Proof.
  apply filter_none. intros e. unfold hop_edges.
  destruct (Re.search PUB_RE (message r));
    [| destruct (Re.search CON_RE (message r))].
  - intros ->%list_elem_of_singleton.
    eapply has_rel_false; [apply rel_attrs_rel | discriminate].
  - intros ->%list_elem_of_singleton.
    eapply has_rel_false; [apply delivered_attrs_rel | discriminate].
  - intros H. inversion H.
Qed.

Lemma precedes_edges_not_processed last_by_id r :
  List.filter (has_rel "PROCESSED") (precedes_edges last_by_id r) = [].
Proof.
  apply filter_none. intros e He.
  eapply has_rel_false; [exact (precedes_edges_rel _ _ _ He) | discriminate].
Qed.

(** The PROCESSED edges of the built graph are one per row, in the order
    of the fold. *)
Lemma processed_edges_build_loop rows :
  List.filter (has_rel "PROCESSED") (g_edges (build_loop rows).1)
  = map processed_edge rows.
Proof.
  induction rows as [|r rows IH] using rev_ind; [reflexivity |].
  rewrite build_loop_snoc, map_app.
  destruct (build_loop rows) as [G last_by_id]. cbn [fst] in IH.
  rewrite row_step_edges, List.filter_app, IH. f_equal.
  cbn [List.filter].
  assert (Hp : has_rel "PROCESSED" (processed_edge r) = true).
  { apply has_rel_lookup. apply rel_attrs_rel. }
  rewrite Hp, List.filter_app, hop_edges_not_processed,
    precedes_edges_not_processed.
  reflexivity.
Qed.

Lemma processed_edges_from rows r :
  NoDup (map event_point rows) → r ∈ rows →
  List.filter (from_node (event_point r)) (map processed_edge rows)
  = [processed_edge r].
Proof.
  induction rows as [|r0 rows IH]; intros Hnd Hr; [inversion Hr |].
  cbn [map] in Hnd. apply NoDup_cons in Hnd as [Hnotin Hnd].
  cbn [map List.filter]. unfold from_node at 1. cbn [processed_edge e_src].
  apply elem_of_cons in Hr as [-> | Hr].
  - rewrite String.eqb_refl. f_equal.
    apply filter_none. intros e (r' & -> & Hr')%list_elem_of_fmap.
    unfold from_node. cbn [processed_edge e_src].
    apply String.eqb_neq. intros Heq. apply Hnotin.
    rewrite <- Heq. apply list_elem_of_fmap. exists r'. split; [reflexivity | exact Hr'].
  - destruct (String.eqb (event_point r0) (event_point r)) eqn:E.
    + apply String.eqb_eq in E. exfalso. apply Hnotin. rewrite E.
      apply list_elem_of_fmap. exists r. split; [reflexivity | exact Hr].
    + apply IH; assumption.
Qed.

(** C4, as the code has it: when the [event_point] ids of the input are
    pairwise distinct and differ from every correlation key, and no key
    is the queue name, every node of type EventPoint of the built graph
    is the event point of one input row, has exactly one PROCESSED edge,
    and that edge points to the row's correlation key, a node of type
    DataInstance. Distinctness is a condition on the input: the ids are
    [service + "_" + action name], without a disambiguator. *)
Theorem event_point_has_one_processed_edge (df : list row) :
  NoDup (map event_point df) →
  (∀ r r', r ∈ df → r' ∈ df → event_point r ≠ corr_key r') →
  (∀ r, r ∈ df → corr_key r ≠ QUEUE_NAME) →
  let G := _build_nx df in
  ∀ n a, (n, a) ∈ g_nodes G → a !! "type" = Some (PyStr "EventPoint") →
    ∃ r, r ∈ df ∧ event_point r = n ∧
      List.filter (fun e => from_node n e && has_rel "PROCESSED" e)%bool
                  (g_edges G)
      = [ Edge n (corr_key r) (rel_attrs "PROCESSED" (timestamp r)) ] ∧
      node_has_type G (corr_key r) "DataInstance".
Proof.
  intros Hnd Hdisj Hq G n a Hn Ha. subst G. unfold _build_nx in *.
  pose proof (sort_values_perm df) as Hperm.
  assert (Hmem : ∀ r, r ∈ sort_values df ↔ r ∈ df)
    by (intros r; rewrite Hperm; reflexivity).
  assert (Hnd' : NoDup (map event_point (sort_values df))).
  { change (NoDup (event_point <$> sort_values df)).
    rewrite Hperm. exact Hnd. }
  pose proof (within_build_loop (sort_values df) n a Hn Ha) as Hin.
  apply list_elem_of_fmap in Hin as (r & -> & Hr).
  exists r. split; [apply Hmem; exact Hr |]. split; [reflexivity |]. split.
  - rewrite filter_andb, processed_edges_build_loop.
    apply processed_edges_from; assumption.
  - apply has_type_build_loop; [| | exact Hr].
    + intros r1 r2 H1%Hmem H2%Hmem. apply Hdisj; assumption.
    + intros r1 H1%Hmem. apply Hq. exact H1.
Qed.

Lemma event_point_has_one_processed_edge_witness :
  ∃ r, r ∈ scenario_A ∧ event_point r = "orders_publishEvent" ∧
    List.filter (fun e => from_node "orders_publishEvent" e
                          && has_rel "PROCESSED" e)%bool
                (g_edges (_build_nx scenario_A))
    = [ Edge "orders_publishEvent" (corr_key r)
             (rel_attrs "PROCESSED" (timestamp r)) ] ∧
    node_has_type (_build_nx scenario_A) (corr_key r) "DataInstance".
Proof.
  eapply (event_point_has_one_processed_edge scenario_A).
  - vm_compute. repeat constructor; intros H;
      repeat (apply elem_of_cons in H as [H | H]; [discriminate H |]);
      inversion H.
  - intros r r' Hr Hr'. vm_compute in Hr, Hr'.
    repeat (apply elem_of_cons in Hr as [-> | Hr]);
      try (inversion Hr; fail);
      repeat (apply elem_of_cons in Hr' as [-> | Hr']);
      try (inversion Hr'; fail); discriminate.
  - intros r Hr. vm_compute in Hr.
    repeat (apply elem_of_cons in Hr as [-> | Hr]);
      try (inversion Hr; fail); discriminate.
  - vm_compute. do 3 right. left.
  - vm_compute. reflexivity.
Defined.

(** C4 as stated does not hold: the ids given by the normaliser are not
    unique. Two log lines of service [orders] that both publish get the
    id [orders_publishEvent], and that EventPoint has two PROCESSED
    edges, to two DataInstances. *)
Lemma event_point_ids_repeat :
  let rows := assign_event_points true 200 repeated_action_log in
  let G := _build_nx rows in
  map event_point rows = [ "orders_publishEvent"; "orders_publishEvent" ] ∧
  List.filter (fun n => py_eq_str (get n.2 "type") "EventPoint") (g_nodes G)
  = [ ("orders_publishEvent",
       {[ "type" := PyStr "EventPoint"; "svc" := PyStr "orders";
          "ts" := PyTs 1000000000; "raw" := PyStr "publish orderId=2" ]}) ] ∧
  map e_dst (List.filter (fun e => from_node "orders_publishEvent" e
                                   && has_rel "PROCESSED" e)%bool (g_edges G))
  = [ "orderId=1"; "orderId=2" ].
Proof. repeat split; vm_compute; reflexivity. Qed.

(** ** Loops of the scanner *)

Lemma bind_Ok_inv {A B} (r : result A) (k : A → result B) b :
  (r ≫= k) = Ok b → ∃ a, r = Ok a ∧ k a = Ok b.
Proof.
  destruct r as [a|e]; [| discriminate]. intros H. exists a. split; [reflexivity | exact H].
Qed.

(** A loop invariant over the prefix already visited. *)
Lemma for_each_inv {A S} (body : A → S → result S) (I : list A → S → Prop)
    xs s0 s' :
  I [] s0 →
  (∀ pre x s s1, I pre s → body x s = Ok s1 → I (pre ++ [x])%list s1) →
  for_each body xs s0 = Ok s' → I xs s'.
Proof.
  intros H0 Hstep.
  enough (Hgen : ∀ pre s, I pre s → for_each body xs s = Ok s' →
                          I (pre ++ xs)%list s')
    by (apply (Hgen [] s0 H0)).
  induction xs as [|x xs IH]; intros pre s Hpre Hrun.
  - injection Hrun as <-. rewrite app_nil_r. exact Hpre.
  - cbn [for_each] in Hrun. apply bind_Ok_inv in Hrun as (s1 & Hx & Hrest).
    replace (pre ++ x :: xs)%list with ((pre ++ [x]) ++ xs)%list
      by (rewrite <- app_assoc; reflexivity).
    apply (IH _ s1); [| exact Hrest]. eapply Hstep; eassumption.
Qed.



Lemma py_eq_str_true v text : py_eq_str v text = true ↔ v = PyStr text.
Proof.
  destruct v; simpl; try (split; [discriminate | discriminate]).
  rewrite String.eqb_eq. split; congruence.
Qed.


Lemma delivered_with_lag_true d :
  delivered_with_lag d = Ok true ↔
  d !! "rel" = Some (PyStr "DELIVERED") ∧ truthy (get d "lag") = true.
Proof.
  unfold delivered_with_lag, getitem.
  destruct (d !! "rel") as [rel|]; simpl; [| split; [discriminate | intros [H _]; discriminate H]].
  split.
  - intros [= H]. apply andb_true_iff in H as [H1%py_eq_str_true H2].
    subst rel. split; [reflexivity | exact H2].
  - intros [[= ->] H2]. simpl. rewrite H2. reflexivity.
Qed.

(** ** Slow hops *)

Lemma slow_loop float_of_str es slow :
  for_each (slow_body float_of_str) es [] = Ok slow →
  ∀ h, h ∈ slow ↔ ∃ e, e ∈ es ∧ slow_entry float_of_str e h.
Proof.
  apply (for_each_inv (slow_body float_of_str)
           (fun pre slow => ∀ h, h ∈ slow ↔
                                 ∃ e, e ∈ pre ∧ slow_entry float_of_str e h)).
  - intros h. split; [intros H; inversion H | intros (e & He & _); inversion He].
  - intros pre x s s1 IH Hbody h. unfold slow_body in Hbody.
    apply bind_Ok_inv in Hbody as (b & Hb & Hbody).
    assert (Hsplit : (∃ e, e ∈ (pre ++ [x])%list ∧ slow_entry float_of_str e h)
                     ↔ h ∈ s ∨ slow_entry float_of_str x h).
    { rewrite IH. split.
      - intros (e & [He | ->%list_elem_of_singleton]%elem_of_app & Hh);
          [left; eauto | right; exact Hh].
      - intros [(e & He & Hh) | Hh].
        + exists e. split; [apply elem_of_app; left; exact He | exact Hh].
        + exists x. split; [apply elem_of_app; right; left | exact Hh]. }
    rewrite Hsplit. clear Hsplit IH.
    destruct b.
    + apply bind_Ok_inv in Hbody as (lag & Hlag & Hbody).
      apply delivered_with_lag_true in Hb.
      destruct (Qle_bool lag 1) eqn:Hle.
      * injection Hbody as <-. split; [left; exact H |].
        intros [H | (_ & _ & _ & Hl & Hgt)]; [exact H |].
        rewrite Hlag in Hl. injection Hl as Hl. rewrite <- Hl in Hgt.
        apply Qle_bool_iff in Hle. exfalso. exact (Qlt_not_le _ _ Hgt Hle).
      * injection Hbody as <-. rewrite elem_of_app, list_elem_of_singleton.
        assert (Hgt : (1 < lag)%Q).
        { apply Qnot_le_lt. intros H%Qle_bool_iff. congruence. }
        split; (intros [H | H]; [left; exact H | right]).
        -- subst h. repeat split; solve [apply Hb | exact Hlag | exact Hgt].
        -- destruct H as (_ & Hu & Hv & Hl & _). rewrite Hlag in Hl.
           injection Hl as Hl. destruct h as [[u v] l]. cbn in *. congruence.
    + injection Hbody as <-. split; [left; exact H |].
      intros [H | ((Hrel & Htr) & _)]; [exact H |].
      assert (Htrue : delivered_with_lag (e_data x) = Ok true)
        by (apply delivered_with_lag_true; split; assumption).
      congruence.
Qed.

Lemma Qle_bool_total x y : Qle_bool x y = true ∨ Qle_bool y x = true.
Proof.
  rewrite !Qle_bool_iff. destruct (Qlt_le_dec x y) as [H | H].
  - left. apply Qlt_le_weak. exact H.
  - right. exact H.
Qed.

Lemma sort_slow_Sorted slow :
  Sorted (fun x y : string * string * Q => (y.2 <= x.2)%Q) (sort_slow slow).
Proof.
  eapply Sorted_weaken; [| apply stable_sort_Sorted].
  - intros x y H. cbn beta in H. apply Qle_bool_iff. exact H.
  - intros x y. cbn beta. apply Qle_bool_total.
Qed.

Lemma find_slow_hops_spec float_of_str G slow :
  find_slow_hops float_of_str G = Ok slow →
  (∀ h, h ∈ slow ↔ ∃ e, e ∈ edges G ∧ slow_entry float_of_str e h) ∧
  Sorted (fun x y : string * string * Q => (y.2 <= x.2)%Q) slow.
Proof.
  unfold find_slow_hops. intros (raw & Hraw & [= <-])%bind_Ok_inv. split.
  - intros h. unfold sort_slow. rewrite stable_sort_elem_of.
    apply slow_loop. exact Hraw.
  - apply sort_slow_Sorted.
Qed.

Lemma scan_findings_inv float_of_str G f :
  scan_findings float_of_str G = Ok f →
  ∃ lags, collect_lags float_of_str G = Ok lags ∧
          find_bottleneck lags = Ok (bottleneck f) ∧
          find_lost G = Ok (lost f) ∧
          find_slow_hops float_of_str G = Ok (slow_hops f).
Proof.
  unfold scan_findings.
  intros (lags & Hlags & (b & Hb & (l & Hl & (sl & Hs & [= <-])%bind_Ok_inv)
                            %bind_Ok_inv)%bind_Ok_inv)%bind_Ok_inv.
  exists lags. repeat split; assumption.
Qed.

(** C7: every entry of the slow-hop list comes from a DELIVERED edge
    between its two endpoints whose lag is the entry's and exceeds 1.0;
    every DELIVERED edge whose lag exceeds 1.0 has its entry in the list;
    and the list is sorted by lag, largest first. *)
Theorem slow_hops_filter_and_order float_of_str (G : MultiDiGraph)
    (f : Findings) :
  scan_findings float_of_str G = Ok f →
  (∀ u v lag, (u, v, lag) ∈ slow_hops f →
     ∃ e, e ∈ edges G ∧ e_src e = u ∧ e_dst e = v ∧
          e_data e !! "rel" = Some (PyStr "DELIVERED") ∧
          _edge_lag float_of_str (e_data e) = Ok lag ∧ (1 < lag)%Q) ∧
  (∀ e lag, e ∈ edges G →
     e_data e !! "rel" = Some (PyStr "DELIVERED") →
     e_data e !! "lag" = Some (PyFloat lag) → (1 < lag)%Q →
     (e_src e, e_dst e, lag) ∈ slow_hops f) ∧
  Sorted (fun x y : string * string * Q => (y.2 <= x.2)%Q) (slow_hops f).
Proof.
  intros (lags & _ & _ & _ & Hslow)%scan_findings_inv.
  apply find_slow_hops_spec in Hslow as [Hmem Hsorted].
  split; [| split; [| exact Hsorted]].
  - intros u v lag (e & He & (Hrel & _) & Hu & Hv & Hlag & Hgt)%Hmem.
    cbn in Hu, Hv, Hlag, Hgt. exists e. repeat split; auto.
  - intros e lag He Hrel Hlag Hgt. apply Hmem. exists e. split; [exact He |].
    repeat split; cbn.
    + exact Hrel.
    + unfold get. rewrite Hlag. cbn.
      apply negb_true_iff. destruct (Qeq_bool lag 0) eqn:E; [| reflexivity].
      apply Qeq_bool_iff in E. rewrite E in Hgt. discriminate Hgt.
    + unfold _edge_lag. rewrite Hlag. reflexivity.
    + exact Hgt.
Qed.

Lemma scenario_C_scan : scan_findings no_float scenario_C = Ok scenario_C_findings.
Proof. vm_compute. reflexivity. Qed.

Lemma slow_hops_filter_and_order_witness :
  (∀ u v lag, (u, v, lag) ∈ slow_hops scenario_C_findings →
     ∃ e, e ∈ edges scenario_C ∧ e_src e = u ∧ e_dst e = v ∧
          e_data e !! "rel" = Some (PyStr "DELIVERED") ∧
          _edge_lag no_float (e_data e) = Ok lag ∧ (1 < lag)%Q) ∧
  (∀ e lag, e ∈ edges scenario_C →
     e_data e !! "rel" = Some (PyStr "DELIVERED") →
     e_data e !! "lag" = Some (PyFloat lag) → (1 < lag)%Q →
     (e_src e, e_dst e, lag) ∈ slow_hops scenario_C_findings) ∧
  Sorted (fun x y : string * string * Q => (y.2 <= x.2)%Q)
         (slow_hops scenario_C_findings).
Proof.
  apply (slow_hops_filter_and_order no_float scenario_C scenario_C_findings).
  vm_compute. reflexivity.
Defined.

(** ** Lag groups *)










(** ** The bottleneck *)









(** Scenario C: the bottleneck is the group of lags 2.0 and 4.0, with
    median 3.0. *)
Example scenario_C_median :
  bottleneck scenario_C_findings
  = Some ("order.events->shipping_consumeEvent", [2%Q; 4%Q]) ∧
  ∃ m, median [2%Q; 4%Q] = Ok m ∧ (m == 3)%Q.
Proof. split; [reflexivity |]. eexists. split; [reflexivity |]. reflexivity. Qed.


(** ** Lost messages *)













(** ** The scan does not raise *)























(** The two malformed lags are truthy, so their edges form lag groups
    with the value 0, and neither is a slow hop. *)
Example malformed_lags_findings :
  scan_findings no_float malformed_lags
  = Ok (MkFindings (Some ("order.events->shipping_consumeEvent", [0%Q])) [] []).
Proof. vm_compute. reflexivity. Qed.


(** ** The built graph can be scanned *)

Lemma upsert_present_id {V} (k : string) (fresh : V) d :
  is_Some (OD.get k d) → OD.upsert k (fun old => old) fresh d = d.
Proof.
  induction d as [|[k' v] d IH]; simpl; [intros [x Hx]; discriminate Hx |].
  destruct (String.eqb k' k); [reflexivity |].
  intros H. rewrite IH by exact H. reflexivity.
Qed.

Lemma has_node_add_node_same n a G : has_node (add_node n a G) n.
Proof.
  unfold has_node, add_node. cbn [g_nodes]. rewrite get_upsert, String.eqb_refl.
  eexists. reflexivity.
Qed.

Lemma has_node_add_node n a m G : has_node G m → has_node (add_node n a G) m.
Proof.
  unfold has_node, add_node. cbn [g_nodes]. rewrite get_upsert.
  destruct (String.eqb n m); [intros _; eexists; reflexivity | auto].
Qed.

Lemma add_edge_nodes u v a G :
  has_node G u → has_node G v → g_nodes (add_edge u v a G) = g_nodes G.
Proof.
  unfold has_node, add_edge. cbn [g_nodes]. intros Hu Hv.
  rewrite (upsert_present_id u) by exact Hu. apply upsert_present_id. exact Hv.
Qed.

Lemma has_node_add_edge u v a m G :
  has_node G u → has_node G v → has_node G m → has_node (add_edge u v a G) m.
Proof. intros Hu Hv Hm. unfold has_node. rewrite add_edge_nodes; assumption. Qed.

Lemma scannable_empty : scannable empty_graph.
Proof.
  split; cbn; intros;
    match goal with H : _ ∈ [] |- _ => inversion H end.
Qed.

Lemma scannable_add_node n a G :
  is_Some (a !! "type") → scannable G → scannable (add_node n a G).
Proof.
  intros [ty Hty] [Hend Hrel Htype]. split.
  - intros e He. destruct (Hend e He) as [Hs Hd].
    split; apply has_node_add_node; assumption.
  - exact Hrel.
  - intros m b Hm. unfold add_node in Hm. cbn [g_nodes] in Hm.
    apply elem_of_upsert in Hm as [Hm | (-> & [-> | (a0 & _ & ->)])].
    + exact (Htype m b Hm).
    + eauto.
    + exists ty. apply lookup_union_Some_l. exact Hty.
Qed.

Lemma scannable_add_edge u v a G :
  has_node G u → has_node G v → is_Some (a !! "rel") →
  scannable G → scannable (add_edge u v a G).
Proof.
  intros Hu Hv Ha [Hend Hrel Htype]. split.
  - intros e He. rewrite add_edge_nodes by assumption.
    rewrite g_edges_add_edge in He.
    apply elem_of_app in He as [He | ->%list_elem_of_singleton];
      [exact (Hend e He) | split; assumption].
  - intros e He. rewrite g_edges_add_edge in He.
    apply elem_of_app in He as [He | ->%list_elem_of_singleton];
      [exact (Hrel e He) | exact Ha].
  - intros m b Hm. rewrite add_edge_nodes in Hm by assumption.
    exact (Htype m b Hm).
Qed.

Ltac solve_has_node :=
  lazymatch goal with
  | |- has_node (add_edge _ _ _ _) _ =>
      apply has_node_add_edge; solve_has_node
  | |- has_node (add_node ?n _ _) ?n => apply has_node_add_node_same
  | |- has_node (add_node _ _ _) _ =>
      first [ apply has_node_add_node_same
            | apply has_node_add_node; solve_has_node ]
  | |- _ => eassumption
  end.

Ltac solve_attr :=
  eexists;
  first [ apply rel_attrs_rel | apply delivered_attrs_rel | apply lookup_insert_eq ].

Ltac solve_scannable :=
  lazymatch goal with
  | |- scannable (add_edge _ _ _ _) =>
      apply scannable_add_edge;
      [ solve_has_node | solve_has_node | solve_attr | solve_scannable ]
  | |- scannable (add_node _ _ _) =>
      apply scannable_add_node; [ solve_attr | solve_scannable ]
  | |- _ => assumption
  end.

Lemma build_inv_row_step st r : build_inv st → build_inv (row_step st r).
Proof.
  destruct st as [G last_by_id]. intros [HG Hlast]. cbn [fst snd] in *.
  unfold build_inv, row_step.
  destruct (Re.search PUB_RE (message r)) eqn:Hpub;
    [| destruct (Re.search CON_RE (message r)) eqn:Hcon].
  - (* publish *)
    assert (Hprev : ∀ prev,
              <[corr_key r := QUEUE_NAME]> last_by_id
                !! (corr_key r +:+ "@prev") = Some prev → has_node G prev).
    { intros prev. rewrite lookup_insert_ne by (symmetry; apply prev_slot_ne_key).
      apply Hlast. }
    destruct (<[corr_key r := QUEUE_NAME]> last_by_id
                !! (corr_key r +:+ "@prev")) as [prev|] eqn:E;
      [pose proof (Hprev prev eq_refl) as Hp;
       destruct (negb (String.eqb prev "")
                 && negb (String.eqb prev (event_point r)))%bool |];
      cbn [fst snd]; (split; [solve_scannable |]);
      intros k v Hk;
      (apply lookup_insert_Some in Hk as [[_ <-] | [_ Hk]];
       [solve_has_node |]);
      (apply lookup_insert_Some in Hk as [[_ <-] | [_ Hk]];
       [solve_has_node |]);
      pose proof (Hlast k v Hk); solve_has_node.
  - (* consume *)
    destruct (last_by_id !! (corr_key r +:+ "@prev")) as [prev|] eqn:E;
      [pose proof (Hlast _ prev E) as Hp;
       destruct (negb (String.eqb prev "")
                 && negb (String.eqb prev (event_point r)))%bool |];
      cbn [fst snd]; (split; [solve_scannable |]);
      intros k v Hk;
      (apply lookup_insert_Some in Hk as [[_ <-] | [_ Hk]];
       [solve_has_node |]);
      pose proof (Hlast k v Hk); solve_has_node.
  - (* neither *)
    destruct (last_by_id !! (corr_key r +:+ "@prev")) as [prev|] eqn:E;
      [pose proof (Hlast _ prev E) as Hp;
       destruct (negb (String.eqb prev "")
                 && negb (String.eqb prev (event_point r)))%bool |];
      cbn [fst snd]; (split; [solve_scannable |]);
      intros k v Hk;
      (apply lookup_insert_Some in Hk as [[_ <-] | [_ Hk]];
       [solve_has_node |]);
      pose proof (Hlast k v Hk); solve_has_node.
Qed.

Lemma build_inv_build_loop rows : build_inv (build_loop rows).
Proof.
  induction rows as [|r rows IH] using rev_ind.
  - split; [apply scannable_empty |]. intros k v H. cbn in H.
    rewrite lookup_empty in H. discriminate H.
  - rewrite build_loop_snoc. apply build_inv_row_step. exact IH.
Qed.







(** ** The nodes of the built graph *)

Lemma has_node_add_node_iff n a m G :
  has_node (add_node n a G) m ↔ m = n ∨ has_node G m.
Proof.
  unfold has_node, add_node. cbn [g_nodes]. rewrite get_upsert.
  destruct (String.eqb n m) eqn:E.
  - apply String.eqb_eq in E as ->. split; [left; reflexivity | eauto].
  - apply String.eqb_neq in E. split; [right; assumption |].
    intros [-> | H]; [contradiction | exact H].
Qed.

Lemma has_node_add_edge_iff u v a m G :
  has_node (add_edge u v a G) m ↔ m = u ∨ m = v ∨ has_node G m.
Proof.
  unfold has_node, add_edge. cbn [g_nodes]. rewrite !get_upsert.
  destruct (String.eqb v m) eqn:Ev; [apply String.eqb_eq in Ev as -> |
                                     apply String.eqb_neq in Ev];
    (destruct (String.eqb u m) eqn:Eu; [apply String.eqb_eq in Eu as -> |
                                        apply String.eqb_neq in Eu]).
  - split; [auto | eauto].
  - split; [auto | eauto].
  - split; [auto | eauto].
  - split; [auto |]. intros [-> | [-> | H]]; [contradiction .. | exact H].
Qed.

Lemma classify_other msg :
  classify msg ≠ Other ↔
  (Re.search PUB_RE msg || Re.search CON_RE msg)%bool = true.
Proof.
  unfold classify.
  destruct (Re.search PUB_RE msg); [split; [reflexivity | discriminate] |].
  destruct (Re.search CON_RE msg); [split; [reflexivity | discriminate] |].
  split; [intros H; contradiction | discriminate].
Qed.

Lemma row_step_nodes st r m :
  build_inv st →
  has_node (row_step st r).1 m ↔
  has_node st.1 m ∨ m = corr_key r ∨ m = event_point r ∨
  (m = QUEUE_NAME ∧ classify (message r) ≠ Other).
Proof.
  destruct st as [G last_by_id]. intros [_ Hlast]. cbn [fst snd] in *.
  rewrite classify_other. unfold row_step.
  assert (Hprev : ∀ tbl prev,
            tbl = last_by_id ∨ tbl = <[corr_key r := QUEUE_NAME]> last_by_id →
            tbl !! (corr_key r +:+ "@prev") = Some prev → has_node G prev).
  { intros tbl prev [-> | ->] H; [exact (Hlast _ _ H) |].
    rewrite lookup_insert_ne in H by (symmetry; apply prev_slot_ne_key).
    exact (Hlast _ _ H). }
  destruct (Re.search PUB_RE (message r)) eqn:Hpub;
    [| destruct (Re.search CON_RE (message r)) eqn:Hcon];
    (match goal with
     | |- context [?tbl !! (corr_key r +:+ "@prev")] =>
         destruct (tbl !! (corr_key r +:+ "@prev")) as [prev|] eqn:E;
         [ pose proof (Hprev tbl prev ltac:(auto) E) as Hp;
           destruct (negb (String.eqb prev "")
                     && negb (String.eqb prev (event_point r)))%bool |]
     end);
    cbn [fst snd orb];
    repeat (rewrite has_node_add_edge_iff || rewrite has_node_add_node_iff);
    intuition (subst; auto; discriminate).
Qed.

(** X4: the nodes of the built graph are the correlation keys and the
    event-point ids of the input rows, and the queue when, and only when,
    some row is classified Publish or Consume (or has the queue name as
    an id). *)
Theorem built_graph_nodes (df : list row) (m : string) :
  has_node (_build_nx df) m ↔
  ∃ r, r ∈ df ∧ (m = corr_key r ∨ m = event_point r ∨
                 (m = QUEUE_NAME ∧ classify (message r) ≠ Other)).
Proof.
  unfold _build_nx.
  assert (Hloop : ∀ rows,
            has_node (build_loop rows).1 m ↔
            ∃ r, r ∈ rows ∧ (m = corr_key r ∨ m = event_point r ∨
                             (m = QUEUE_NAME ∧ classify (message r) ≠ Other))).
  { induction rows as [|r rows IH] using rev_ind.
    - split; [intros [a Ha]; discriminate Ha | intros (r & Hr & _); inversion Hr].
    - rewrite build_loop_snoc, row_step_nodes by apply build_inv_build_loop.
      rewrite IH. split.
      + intros [(r0 & Hr0 & H) | H].
        * exists r0. split; [apply elem_of_app; left; exact Hr0 | exact H].
        * exists r. split; [apply elem_of_app; right; left | exact H].
      + intros (r0 & [Hr0 | ->%list_elem_of_singleton]%elem_of_app & H);
          [left; eauto | right; exact H]. }
  rewrite Hloop. split; intros (r & Hr & H); exists r; split; try exact H.
  - rewrite <- (sort_values_perm df). exact Hr.
  - rewrite (sort_values_perm df). exact Hr.
Qed.

(** ** The timeline *)

Lemma length_append (s t : string) :
  String.length (s +:+ t) = (String.length s + String.length t)%nat.
Proof. induction s as [|c s IH]; simpl; [reflexivity | f_equal; exact IH]. Qed.

Lemma append_cancel_r (s1 s2 t : string) : s1 +:+ t = s2 +:+ t → s1 = s2.
Proof.
  assert (Hlen : ∀ c s, t ≠ String c (s +:+ t)).
  { intros c s H. apply (f_equal String.length) in H. simpl in H.
    rewrite length_append in H. lia. }
  revert s2. induction s1 as [|c s1 IH]; intros s2 H.
  - destruct s2 as [|c2 s2]; [reflexivity |]. simpl in H.
    exfalso. exact (Hlen _ _ H).
  - destruct s2 as [|c2 s2]; simpl in H.
    + exfalso. symmetry in H. exact (Hlen _ _ H).
    + injection H as -> H. f_equal. exact (IH _ H).
Qed.

Lemma last_event_point_snoc rows r k :
  last_event_point (rows ++ [r]) k
  = if String.eqb (corr_key r) k then Some (event_point r)
    else last_event_point rows k.
Proof. unfold last_event_point. rewrite foldl_snoc. reflexivity. Qed.

(** The pointer slot of a key that no row collides with holds the event
    point of the last row of that key. *)
Lemma prev_slot_tracks_last rows k :
  (∀ r, r ∈ rows → corr_key r ≠ k +:+ "@prev") →
  (build_loop rows).2 !! (k +:+ "@prev") = last_event_point rows k.
Proof.
  induction rows as [|r rows IH] using rev_ind; intros Hfree.
  - cbn. apply lookup_empty.
  - rewrite build_loop_snoc, last_event_point_snoc.
    destruct (build_loop rows) as [G last_by_id]. cbn [snd] in IH.
    rewrite row_step_state.
    destruct (String.eqb (corr_key r) k) eqn:E.
    + apply String.eqb_eq in E as ->. apply lookup_insert_eq.
    + apply String.eqb_neq in E.
      rewrite lookup_insert_ne
        by (intros H%append_cancel_r; contradiction).
      unfold hop_state. destruct (Re.search PUB_RE (message r)).
      * rewrite lookup_insert_ne
          by (apply Hfree; apply elem_of_app; right; left).
        apply IH. intros r' Hr'. apply Hfree. apply elem_of_app. left. exact Hr'.
      * apply IH. intros r' Hr'. apply Hfree. apply elem_of_app. left. exact Hr'.
Qed.

Lemma hop_edges_not_precedes last_by_id r :
  List.filter (has_rel "PRECEDES") (hop_edges last_by_id r) = [].
Proof.
  apply filter_none. intros e. unfold hop_edges.
  destruct (Re.search PUB_RE (message r));
    [| destruct (Re.search CON_RE (message r))].
  - intros ->%list_elem_of_singleton.
    eapply has_rel_false; [apply rel_attrs_rel | discriminate].
  - intros ->%list_elem_of_singleton.
    eapply has_rel_false; [apply delivered_attrs_rel | discriminate].
  - intros H. inversion H.
Qed.

Lemma filter_all {A} (f : A → bool) l :
  (∀ x, x ∈ l → f x = true) → List.filter f l = l.
Proof.
  induction l as [|x l IH]; intros H; simpl; [reflexivity |].
  rewrite (H x) by left. f_equal. apply IH. intros y Hy. apply H. right. exact Hy.
Qed.

(** X5: when no earlier event has a key equal to this event's key
    followed by "@prev", the event adds the PRECEDES edge from the event
    point of the previous event of the same key to its own, if there is
    such an event and the two event points differ, and no other PRECEDES
    edge. *)
Theorem timeline_edge_of_event (rows : list row) (r : row) :
  (∀ r', r' ∈ rows → corr_key r' ≠ corr_key r +:+ "@prev") →
  List.filter (has_rel "PRECEDES") (g_edges (build_loop (rows ++ [r])).1)
  = (List.filter (has_rel "PRECEDES") (g_edges (build_loop rows).1)
     ++ timeline_link (last_event_point rows (corr_key r)) r)%list.
Proof.
  intros Hfree. rewrite build_loop_snoc.
  pose proof (prev_slot_tracks_last rows (corr_key r) Hfree) as Hslot.
  destruct (build_loop rows) as [G last_by_id]. cbn [fst snd] in *.
  rewrite row_step_edges, List.filter_app. f_equal.
  cbn [List.filter].
  assert (Hp : has_rel "PRECEDES" (processed_edge r) = false)
    by (eapply has_rel_false; [apply rel_attrs_rel | discriminate]).
  rewrite Hp, List.filter_app, hop_edges_not_precedes. cbn [app].
  rewrite filter_all
    by (intros e He; apply has_rel_lookup; exact (precedes_edges_rel _ _ _ He)).
  unfold precedes_edges, timeline_link.
  assert (Hsame : hop_state last_by_id r !! (corr_key r +:+ "@prev")
                  = last_by_id !! (corr_key r +:+ "@prev")).
  { unfold hop_state. destruct (Re.search PUB_RE (message r)); [| reflexivity].
    apply lookup_insert_ne. symmetry. apply prev_slot_ne_key. }
  rewrite Hsame, Hslot. reflexivity.
Qed.

Lemma timeline_edge_of_event_witness :
  List.filter (has_rel "PRECEDES") (g_edges (build_loop scenario_A).1)
  = (List.filter (has_rel "PRECEDES") (g_edges (build_loop (take 2 scenario_A)).1)
     ++ [ Edge "orders_publishEvent" "orders_consumeEvent"
               {[ "rel" := PyStr "PRECEDES" ]} ])%list.
Proof.
  pose proof (timeline_edge_of_event (take 2 scenario_A)
                (Row 5000000000 "orders" "consume shipping ack" "orderId=1"
                     "orders_consumeEvent")) as H.
  etransitivity; [apply H |].
  - intros r' Hr'. vm_compute in Hr'.
    repeat (apply elem_of_cons in Hr' as [-> | Hr']);
      try (inversion Hr'; fail); discriminate.
  - vm_compute. reflexivity.
Defined.

(** ** Batching and naming of the normaliser *)

Lemma batch_fuel_spec {A} (size fuel : nat) (l : list A) :
  (0 < size)%nat → (List.length l ≤ fuel)%nat →
  List.concat (batch_fuel fuel size l) = l ∧
  Forall (fun chunk => (0 < List.length chunk ≤ size)%nat)
         (batch_fuel fuel size l).
Proof.
  intros Hsize. revert l. induction fuel as [|fuel IH]; intros l Hlen.
  - destruct l; [split; [reflexivity | constructor] | cbn in Hlen; lia].
  - cbn [batch_fuel]. destruct (take size l) as [|x chunk] eqn:E.
    + assert (l = []) as ->.
      { destruct l as [|y l]; [reflexivity |].
        destruct size; [lia | discriminate E]. }
      split; [reflexivity | constructor].
    + destruct (IH (drop size l)) as [Hcat Hall].
      { rewrite length_drop. cbn in Hlen. lia. }
      split.
      * cbn [List.concat]. rewrite Hcat, <- E. apply take_drop.
      * constructor; [| exact Hall]. rewrite <- E. split.
        -- rewrite E. cbn. lia.
        -- rewrite length_take. lia.
Qed.

(** X6: for a positive size, [batch] cuts the list into consecutive
    chunks: glued back together they give the list, and every chunk is
    non-empty and at most [size] long. *)
Theorem batch_partitions {A} (l : list A) (size : nat) :
  (0 < size)%nat →
  List.concat (batch l size) = l ∧
  Forall (fun chunk => (0 < List.length chunk ≤ size)%nat) (batch l size).
Proof. intros Hsize. apply batch_fuel_spec; [exact Hsize | reflexivity]. Qed.

Lemma batch_partitions_witness :
  List.concat (batch [1; 2; 3; 4; 5]%nat 2) = [1; 2; 3; 4; 5]%nat ∧
  Forall (fun chunk => (0 < List.length chunk ≤ 2)%nat)
         (batch [1; 2; 3; 4; 5]%nat 2).
Proof. apply (batch_partitions [1; 2; 3; 4; 5]%nat 2). lia. Defined.

Lemma first_seen_elem_of x seen l :
  x ∈ first_seen seen l ↔ x ∈ l ∧ x ∉ seen.
Proof.
  revert seen. induction l as [|y l IH]; intros seen; cbn [first_seen].
  - split; [intros H; inversion H | intros [H _]; inversion H].
  - case_bool_decide as Hy.
    + rewrite IH, elem_of_cons. split; [intros [H1 H2]; auto |].
      intros [[-> | H1] H2]; [contradiction | auto].
    + rewrite !elem_of_cons, IH, elem_of_cons. split.
      * intros [-> | [H1 H2]]; [auto |]. split; [auto | tauto].
      * intros [[-> | H1] H2]; [auto |].
        destruct (decide (x = y)) as [-> | Hne]; [auto | right; tauto].
Qed.

Lemma insert_names_lookup (m : gmap string string) (l : list string) x :
  foldl (fun m kv => <[kv.1 := kv.2]> m) m (zip l (llm_event_names l)) !! x
  = if bool_decide (x ∈ l) then Some (simple_event_name x) else m !! x.
Proof.
  revert m. induction l as [|a l IH]; intros m; [reflexivity |].
  cbn [llm_event_names map zip zip_with foldl fst snd].
  change (map simple_event_name l) with (llm_event_names l). rewrite IH.
  case_bool_decide as Hl.
  - rewrite bool_decide_eq_true_2 by (right; exact Hl). reflexivity.
  - destruct (decide (x = a)) as [-> | Hne].
    + rewrite bool_decide_eq_true_2 by left. apply lookup_insert_eq.
    + rewrite bool_decide_eq_false_2
        by (intros [? | ?]%elem_of_cons; contradiction).
      apply lookup_insert_ne. congruence.
Qed.

Lemma name_chunks_lookup (m : gmap string string) chunks x :
  foldl (fun mapping chunk =>
           foldl (fun m kv => <[kv.1 := kv.2]> m) mapping
                 (zip chunk (llm_event_names chunk)))
        m chunks !! x
  = if bool_decide (x ∈ List.concat chunks) then Some (simple_event_name x)
    else m !! x.
Proof.
  revert m. induction chunks as [|c chunks IH]; intros m; [reflexivity |].
  cbn [foldl List.concat]. rewrite IH, insert_names_lookup.
  case_bool_decide as H1.
  - rewrite bool_decide_eq_true_2 by (apply elem_of_app; right; exact H1).
    reflexivity.
  - case_bool_decide as H2.
    + rewrite bool_decide_eq_true_2 by (apply elem_of_app; left; exact H2).
      reflexivity.
    + rewrite bool_decide_eq_false_2
        by (intros [? | ?]%elem_of_app; contradiction).
      reflexivity.
Qed.

Lemma name_mapping_lookup demo log_sample keep x :
  name_mapping demo log_sample keep !! x
  = if bool_decide (x ∈ named_sample demo log_sample keep)
    then Some (simple_event_name x) else None.
Proof.
  unfold name_mapping, named_sample. rewrite name_chunks_lookup.
  destruct (batch_partitions
              (if demo then first_seen [] (map k_message keep)
               else take log_sample (first_seen [] (map k_message keep)))
              25 ltac:(lia)) as [-> _].
  rewrite lookup_empty. reflexivity.
Qed.

(** X7: the [event_point] column. Every kept row keeps its timestamp,
    service, message and key, in the same order, and gets the id
    [service + "_" + name], where the name is the one the pattern
    matching gives to the row's message if the message is among the
    named sample, and ["unknownEvent"] otherwise; batching by 25 changes
    nothing. In demo mode every message is in the sample. *)
Theorem event_point_column (demo : bool) (log_sample : nat)
    (keep : list keyed_row) :
  assign_event_points demo log_sample keep
  = map (fun k =>
           Row (k_timestamp k) (k_service k) (k_message k) (k_corr_key k)
               (k_service k +:+ "_"
                  +:+ (if bool_decide
                            (k_message k ∈ named_sample demo log_sample keep)
                       then simple_event_name (k_message k)
                       else "unknownEvent")))
        keep ∧
  assign_event_points true log_sample keep
  = map (fun k =>
           Row (k_timestamp k) (k_service k) (k_message k) (k_corr_key k)
               (k_service k +:+ "_" +:+ simple_event_name (k_message k)))
        keep.
Proof.
  split.
  - unfold assign_event_points. apply map_ext. intros k.
    rewrite name_mapping_lookup. case_bool_decide; reflexivity.
  - unfold assign_event_points. apply map_ext_in. intros k Hk.
    rewrite name_mapping_lookup, bool_decide_eq_true_2; [reflexivity |].
    unfold named_sample. apply first_seen_elem_of. split.
    + apply list_elem_of_fmap. exists k. split; [reflexivity |].
      apply list_elem_of_In. exact Hk.
    + intros H. inversion H.
Qed.

(** ** The hop classifier and letter case *)

Lemma lower_char_idem c : Re.lower_char (Re.lower_char c) = Re.lower_char c.
Proof. destruct c as [[] [] [] [] [] [] [] []]; reflexivity. Qed.

Lemma is_word_lower_char c : Re.is_word (Re.lower_char c) = Re.is_word c.
Proof. destruct c as [[] [] [] [] [] [] [] []]; reflexivity. Qed.

Lemma match_lit_lower l p :
  Re.match_lit l (lower_pos p) = map lower_pos (Re.match_lit l p).
Proof.
  revert p. induction l as [|a l IH]; intros [prev s]; [reflexivity |].
  cbn [Re.match_lit lower_pos fst snd]. destruct s as [|c s]; [reflexivity |].
  cbn [Re.lower]. rewrite lower_char_idem.
  destruct (Ascii.eqb (Re.lower_char a) (Re.lower_char c)); [| reflexivity].
  exact (IH (Some c, s)).
Qed.

Lemma rmatch_lower r p :
  Re.rmatch r (lower_pos p) = map lower_pos (Re.rmatch r p).
Proof.
  revert p. induction r as [l | r1 IH1 r2 IH2 | r1 IH1 r2 IH2 | r1 IH1 |];
    intros p; cbn [Re.rmatch].
  - apply match_lit_lower.
  - rewrite IH1. induction (Re.rmatch r1 p) as [|q qs IHq]; [reflexivity |].
    cbn [map flat_map]. rewrite IH2, IHq, map_app. reflexivity.
  - rewrite IH1, IH2, map_app. reflexivity.
  - rewrite IH1, map_app. reflexivity.
  - destruct p as [[c|] [|c' s]]; cbn; rewrite ?is_word_lower_char;
      try match goal with |- context [if ?b then _ else _] => destruct b end;
      reflexivity.
Qed.

Lemma search_from_lower r prev s :
  Re.search_from r (option_map Re.lower_char prev) (Re.lower s)
  = Re.search_from r prev s.
Proof.
  revert prev. induction s as [|c s IH]; intros prev; cbn [Re.search_from Re.lower].
  - unfold Re.matches_at.
    change (option_map Re.lower_char prev, "") with (lower_pos (prev, "")).
    rewrite rmatch_lower. destruct (Re.rmatch r (prev, "")); reflexivity.
  - unfold Re.matches_at.
    change (option_map Re.lower_char prev, String (Re.lower_char c) (Re.lower s))
      with (lower_pos (prev, String c s)).
    rewrite rmatch_lower.
    destruct (Re.rmatch r (prev, String c s)); [| reflexivity].
    cbn [map]. exact (IH (Some c)).
Qed.

(** X8: the classification of a message does not depend on the case of
    its letters: the message in lower case is classified as the message
    itself. *)
Theorem classify_ignores_letter_case (msg : string) :
  classify (Re.lower msg) = classify msg.
Proof.
  unfold classify, Re.search.
  pose proof (search_from_lower PUB_RE None msg) as Hpub.
  pose proof (search_from_lower CON_RE None msg) as Hcon.
  cbn [option_map] in Hpub, Hcon. rewrite Hpub, Hcon. reflexivity.
Qed.

(** ** Classifier and namer agree on publishes *)









(** ** Correlation keys *)

Example extract_order : extract_corr_key "Order orderId=124 stage=publish" = Some "orderId=124".
Proof. reflexivity. Qed.

Example extract_priority : extract_corr_key "userId=u-1 paymentId=p9 orderId=7x" = Some "orderId=7".
Proof. reflexivity. Qed.

Example extract_word_boundary : extract_corr_key "xorderId=5 ORDERID=6 orderId=" = None.
Proof. reflexivity. Qed.

Lemma append_nil_l (s : string) : EmptyString +:+ s = s.
Proof. reflexivity. Qed.

Lemma append_cons_l (c : ascii) (s t : string) :
  String c s +:+ t = String c (s +:+ t).
Proof. reflexivity. Qed.

Lemma chars_append s t : chars (s +:+ t) = (chars s ++ chars t)%list.
Proof.
  induction s as [|c s IH]; [reflexivity |].
  unfold chars in *.
  change (c :: list_ascii_of_string (s +:+ t) =
          c :: (list_ascii_of_string s ++ list_ascii_of_string t)%list).
  f_equal. exact IH.
Qed.

Lemma after_literal_Some lit s rest :
  Key.after_literal lit s = Some rest ↔ s = lit +:+ rest.
Proof.
  revert s. induction lit as [|a lit IH]; intros s; cbn; rewrite ?append_nil_l, ?append_cons_l.
  - split; congruence.
  - destruct s as [|c s]; [split; discriminate |].
    destruct (Ascii.eqb a c) eqn:E.
    + apply Ascii.eqb_eq in E as ->. rewrite IH. split; congruence.
    + apply Ascii.eqb_neq in E. split; [discriminate | congruence].
Qed.

Lemma run_split cls s :
  ∃ post, s = Key.run cls s +:+ post ∧
          Forall (fun c => cls c = true) (chars (Key.run cls s)).
Proof.
  induction s as [|c s (post & Hs & Hall)]; simpl.
  - exists EmptyString. split; [reflexivity | constructor].
  - destruct (cls c) eqn:E.
    + exists post. split; [rewrite append_cons_l; congruence |]. constructor; assumption.
    + exists (String c s). split; [reflexivity | constructor].
Qed.

Lemma run_all cls s :
  Forall (fun c => cls c = true) (chars s) → Key.run cls s = s.
Proof.
  induction s as [|c s IH]; [reflexivity |]. cbn.
  intros [Hc Hs]%Forall_cons. rewrite Hc, IH by exact Hs. reflexivity.
Qed.

(** What a match of a key pattern is made of. *)
Lemma match_at_Some pat prev s m :
  Key.match_at pat prev s = Some m →
  ∃ digits post,
    m = Key.name pat +:+ digits ∧ digits ≠ EmptyString ∧
    Forall (fun c => Key.class pat c = true) (chars digits) ∧
    s = m +:+ post.
Proof.
  unfold Key.match_at.
  destruct (xorb (Re.word_before prev) (Re.word_after s)); [| discriminate].
  destruct (Key.after_literal (Key.name pat) s) as [rest|] eqn:E;
    [| discriminate].
  apply after_literal_Some in E.
  destruct (run_split (Key.class pat) rest) as (post & Hrest & Hall).
  destruct (Key.run (Key.class pat) rest) as [|c digits] eqn:Er; [discriminate |].
  intros [= <-]. exists (String c digits), post.
  split; [reflexivity |]. split; [discriminate |]. split; [exact Hall |].
  rewrite E, Hrest.
  clear. induction (Key.name pat) as [|a n IH]; [reflexivity |].
  rewrite !append_cons_l. f_equal. exact IH.
Qed.

Lemma search_from_Some pat prev s m :
  Key.search_from pat prev s = Some m →
  ∃ digits pre post,
    m = Key.name pat +:+ digits ∧ digits ≠ EmptyString ∧
    Forall (fun c => Key.class pat c = true) (chars digits) ∧
    s = pre +:+ m +:+ post.
Proof.
  revert prev. induction s as [|c s IH]; intros prev; cbn [Key.search_from].
  - destruct (Key.match_at pat prev "") as [m'|] eqn:E; [| discriminate].
    intros [= ->]. apply match_at_Some in E as (digits & post & H1 & H2 & H3 & H4).
    exists digits, EmptyString, post. auto.
  - destruct (Key.match_at pat prev (String c s)) as [m'|] eqn:E.
    + intros [= ->].
      apply match_at_Some in E as (digits & post & H1 & H2 & H3 & H4).
      exists digits, EmptyString, post. auto.
    + intros (digits & pre & post & H1 & H2 & H3 & H4)%IH.
      exists digits, (String c pre), post. repeat split; try assumption.
      rewrite append_cons_l, H4. reflexivity.
Qed.

Lemma first_key_Some pats msg k :
  first_key pats msg = Some k →
  ∃ pat, pat ∈ pats ∧ Key.search pat msg = Some k.
Proof.
  induction pats as [|pat pats IH]; cbn [first_key]; [discriminate |].
  destruct (Key.search pat msg) as [m|] eqn:E.
  - intros [= ->]. exists pat. split; [left | exact E].
  - intros (pat' & Hin & H)%IH. exists pat'. split; [right; exact Hin | exact H].
Qed.

(** X10: a correlation key is a piece of the message, made of the name
    of one of the three patterns and a non-empty run of characters of
    that pattern's class (digits for [orderId=], letters, digits and [-]
    for the other two). *)
Theorem extracted_key_shape (msg k : string) :
  extract_corr_key msg = Some k →
  ∃ pat digits pre post,
    pat ∈ CORR_PATTERNS ∧
    k = Key.name pat +:+ digits ∧ digits ≠ EmptyString ∧
    Forall (fun c => Key.class pat c = true) (chars digits) ∧
    msg = pre +:+ k +:+ post.
Proof.
  intros (pat & Hin & Hs)%first_key_Some.
  apply search_from_Some in Hs as (digits & pre & post & H1 & H2 & H3 & H4).
  exists pat, digits, pre, post. auto.
Qed.

Lemma extracted_key_shape_witness :
  ∃ pat digits pre post,
    pat ∈ CORR_PATTERNS ∧
    "paymentId=ab-12" = Key.name pat +:+ digits ∧ digits ≠ EmptyString ∧
    Forall (fun c => Key.class pat c = true) (chars digits) ∧
    "charge paymentId=ab-12, ok" = pre +:+ "paymentId=ab-12" +:+ post.
Proof.
  apply (extracted_key_shape "charge paymentId=ab-12, ok" "paymentId=ab-12").
  reflexivity.
Defined.

Lemma class_rejects_at (pat : Key.pattern) :
  pat ∈ CORR_PATTERNS → Key.class pat "@"%char = false ∧ "@"%char ∉ chars (Key.name pat).
Proof.
  intros H. unfold CORR_PATTERNS in H.
  repeat (apply elem_of_cons in H as [-> | H]);
    [| | | apply elem_of_nil in H; destruct H];
    (split; [reflexivity |]);
    intros Hin; vm_compute in Hin;
    repeat (apply elem_of_cons in Hin as [Hin | Hin]; [discriminate Hin |]);
    apply elem_of_nil in Hin; exact Hin.
Qed.

Lemma extracted_key_no_at (msg k : string) :
  extract_corr_key msg = Some k → "@"%char ∉ chars k.
Proof.
  intros (pat & Hin & Hs)%first_key_Some.
  apply search_from_Some in Hs as (digits & pre & post & -> & _ & Hall & _).
  destruct (class_rejects_at pat Hin) as [Hcls Hname].
  rewrite chars_append. intros [H | H]%elem_of_app; [exact (Hname H) |].
  rewrite Forall_forall in Hall. apply Hall in H. congruence.
Qed.

(** X11: keys and pointer slots of the builder never meet on extracted
    keys.  A correlation key has no [@] in it, so no extracted key is
    another extracted key followed by [@prev]: the hand-off entry of one
    id is never the timeline pointer of another. *)
Theorem extracted_keys_never_collide (m1 m2 k1 k2 : string) :
  extract_corr_key m1 = Some k1 →
  extract_corr_key m2 = Some k2 →
  k1 ≠ k2 +:+ "@prev".
Proof.
  intros H1 _ ->. apply extracted_key_no_at in H1. apply H1.
  rewrite chars_append. apply elem_of_app. right. vm_compute. left.
Qed.

Lemma extracted_keys_never_collide_witness :
  "userId=u-7" ≠ "orderId=124" +:+ "@prev".
Proof.
  apply (extracted_keys_never_collide "login userId=u-7" "Order orderId=124 stage=publish");
    reflexivity.
Defined.

Lemma search_from_eq pat prev s :
  Key.search_from pat prev s =
  match Key.match_at pat prev s with
  | Some m => Some m
  | None => match s with
            | EmptyString => None
            | String c s' => Key.search_from pat (Some c) s'
            end
  end.
Proof. destruct s; reflexivity. Qed.

(** A key pattern finds a key made of its own name and class at once. *)
Lemma search_self (pat : Key.pattern) (digits : string) :
  pat ∈ CORR_PATTERNS → digits ≠ EmptyString →
  Forall (fun c => Key.class pat c = true) (chars digits) →
  Key.search pat (Key.name pat +:+ digits) = Some (Key.name pat +:+ digits).
Proof.
  intros Hin Hne Hall.
  assert (Hw : Re.word_after (Key.name pat +:+ digits) = true).
  { unfold CORR_PATTERNS in Hin.
    repeat (apply elem_of_cons in Hin as [-> | Hin]); try reflexivity.
    apply elem_of_nil in Hin. destruct Hin. }
  unfold Key.search. rewrite search_from_eq. unfold Key.match_at.
  rewrite Hw. cbn [Re.word_before xorb].
  rewrite (proj2 (after_literal_Some _ _ digits) eq_refl).
  rewrite run_all by exact Hall.
  destruct digits; [congruence | reflexivity].
Qed.

(** A text without [=] holds no key. *)
Lemma search_from_plain (pat : Key.pattern) (prev : option ascii) (s : string) :
  "="%char ∈ chars (Key.name pat) → "="%char ∉ chars s →
  Key.search_from pat prev s = None.
Proof.
  intros Hname. revert prev.
  assert (Hm : ∀ prev s, "="%char ∉ chars s → Key.match_at pat prev s = None).
  { intros prev s' Hs. destruct (Key.match_at pat prev s') as [m|] eqn:E;
      [| reflexivity].
    apply match_at_Some in E as (digits & post & -> & _ & _ & ->).
    exfalso. apply Hs. rewrite !chars_append.
    apply elem_of_app. left. apply elem_of_app. left. exact Hname. }
  induction s as [|c s IH]; intros prev Hs; rewrite search_from_eq, Hm by exact Hs;
    [reflexivity |].
  apply IH. intros H. apply Hs. right. exact H.
Qed.

Lemma class_rejects_eq (pat : Key.pattern) :
  pat ∈ CORR_PATTERNS →
  Key.class pat "="%char = false ∧ "="%char ∈ chars (Key.name pat).
Proof.
  intros H. unfold CORR_PATTERNS in H.
  repeat (apply elem_of_cons in H as [-> | H]);
    [| | | apply elem_of_nil in H; destruct H];
    (split; [reflexivity |]); vm_compute;
    repeat (first [left | right]).
Qed.

Lemma class_run_no_eq (pat : Key.pattern) (digits : string) :
  pat ∈ CORR_PATTERNS →
  Forall (fun c => Key.class pat c = true) (chars digits) →
  "="%char ∉ chars digits.
Proof.
  intros Hin Hall H. rewrite Forall_forall in Hall. apply Hall in H.
  destruct (class_rejects_eq pat Hin) as [Hc _]. congruence.
Qed.

(** A position where the name of the pattern does not start is passed
    over. *)
Lemma search_from_cons_miss (pat : Key.pattern) (prev : option ascii)
    (c : ascii) (s : string) :
  Key.after_literal (Key.name pat) (String c s) = None →
  Key.search_from pat prev (String c s) = Key.search_from pat (Some c) s.
Proof.
  intros H. rewrite search_from_eq. unfold Key.match_at. rewrite H.
  destruct (xorb _ _); reflexivity.
Qed.

(** The name of a later pattern holds no key of an earlier one. *)
Lemma search_other_payment (pat : Key.pattern) (digits : string) :
  "="%char ∈ chars (Key.name pat) → "="%char ∉ chars digits →
  Key.name pat = "orderId=" →
  Key.search pat ("paymentId=" +:+ digits) = None.
Proof.
  intros Hname Hplain Hn. unfold Key.search.
  rewrite ?append_cons_l, ?append_nil_l.
  repeat (rewrite search_from_cons_miss by (rewrite Hn; reflexivity)).
  apply search_from_plain; assumption.
Qed.

Lemma search_other_user (pat : Key.pattern) (digits : string) :
  "="%char ∈ chars (Key.name pat) → "="%char ∉ chars digits →
  Key.name pat = "orderId=" ∨ Key.name pat = "paymentId=" →
  Key.search pat ("userId=" +:+ digits) = None.
Proof.
  intros Hname Hplain Hn. unfold Key.search.
  rewrite ?append_cons_l, ?append_nil_l.
  destruct Hn as [Hn | Hn];
    repeat (rewrite search_from_cons_miss by (rewrite Hn; reflexivity));
    apply search_from_plain; assumption.
Qed.

(** X12: extraction is idempotent.  A key that was extracted from a
    message is itself a message from which the very same key is
    extracted: no earlier pattern of the list finds anything in it. *)
Theorem extract_corr_key_round_trip (msg k : string) :
  extract_corr_key msg = Some k → extract_corr_key k = Some k.
Proof.
  intros (pat & Hin & Hs)%first_key_Some.
  apply search_from_Some in Hs as (digits & _ & _ & -> & Hne & Hall & _).
  pose proof (search_self pat digits Hin Hne Hall) as Hself.
  pose proof (class_run_no_eq pat digits Hin Hall) as Hplain.
  assert (Heq : ∀ cls, "="%char ∈ chars (Key.name (Key.Pattern "orderId=" cls)) ∧
                       "="%char ∈ chars (Key.name (Key.Pattern "paymentId=" cls))).
  { intros cls. split; vm_compute; repeat (first [left | right]). }
  unfold extract_corr_key, CORR_PATTERNS in *.
  repeat (apply elem_of_cons in Hin as [-> | Hin]);
    [| | | apply elem_of_nil in Hin; destruct Hin];
    cbn [first_key]; cbn [Key.name] in Hself |- *.
  - rewrite Hself. reflexivity.
  - rewrite search_other_payment;
      [| exact (proj1 (Heq _)) | exact Hplain | reflexivity].
    rewrite Hself. reflexivity.
  - rewrite search_other_user;
      [| exact (proj1 (Heq _)) | exact Hplain | left; reflexivity].
    rewrite search_other_user;
      [| exact (proj2 (Heq _)) | exact Hplain | right; reflexivity].
    rewrite Hself. reflexivity.
Qed.

Lemma extract_corr_key_round_trip_witness :
  extract_corr_key "orderId=124" = Some "orderId=124".
Proof.
  apply (extract_corr_key_round_trip "Order orderId=124 stage=publish").
  reflexivity.
Defined.
